(** * MessageQueue: a bounded, closable FIFO queue (src/MessageQueue.h)

    The development has two layers.

    - The _call layer_ embeds each public member function of
      [test_task::MessageQueue<Message>] as a function on the data members
      [m_queue], [m_queueSize] and [m_state].  A call that reaches
      [condition_variable::wait] with a false predicate does not return by
      itself; its outcome is [Suspends].
    - The _thread layer_ is a small-step machine in which every thread runs
      one call, one source line per step; the mutex and the two condition
      variables live there.

    Theorems follow all definitions. *)

From stdpp Require Import base option list strings pretty.
From Stdlib Require Import Lia Ascii.

Set Default Proof Using "Type".

(** ** Enumerations of the header *)

(** [enum class Result] (MessageQueue.h:14-20). *)
Inductive Result : Set := Ok | Empty | Full | NotFound | Closed.

(** [enum class OperationPolicy] (MessageQueue.h:32-35). *)
Inductive OperationPolicy : Set := Blocking | NonBlocking.

(** [enum class State { Running, Closed }] (MessageQueue.h:166).  The
    enumerator [Closed] of [State] lives in its own name space, as in C++. *)
Module State.
Inductive t : Set := Running | Closed.
End State.

(** The two condition variables a call can be parked on. *)
Inductive CondVar : Set := m_popCv | m_pushCv.

(** [std::invalid_argument], the only exception the header throws. *)
Inductive Exception : Set := invalid_argument (what : string).

(** Value initialisation [Message{}], used by [Pop] and [Get] for the
    [Message msg;] local and for the [{}] of every failing [return]. *)
Class DefaultConstructible (A : Type) := value_init : A.

Global Instance string_default : DefaultConstructible string := EmptyString.

(** ** Call layer *)

(** The data members (MessageQueue.h:162-168).  [m_queueSize] is a
    [std::size_t] that is only ever compared with [m_queue.size()], never
    computed with, so it is a [nat]. *)
Record MessageQueue (Message : Type) : Type := mkQueue {
  m_queue : list Message;
  m_queueSize : nat;
  m_state : State.t
}.
Arguments mkQueue {Message} _ _ _.
Arguments m_queue {Message} _.
Arguments m_queueSize {Message} _.
Arguments m_state {Message} _.

(** What a call does when it is run on its own. *)
Inductive Outcome (Message A : Type) : Type :=
| Returns (a : A) (q : MessageQueue Message)
| Suspends (cv : CondVar) (q : MessageQueue Message)
| Undefined (q : MessageQueue Message).
Arguments Returns {Message A} _ _.
Arguments Suspends {Message A} _ _.
Arguments Undefined {Message A} _.

Definition state_after {Message A} (o : Outcome Message A) : MessageQueue Message :=
  match o with
  | Returns _ q => q
  | Suspends _ q => q
  | Undefined q => q
  end.

Section Calls.
Context {Message : Type}.
Implicit Types (q : MessageQueue Message) (m : Message).

(** Constructor (MessageQueue.h:37-42); the members not named in the
    initialiser list take their default member initialisers. *)
Definition MessageQueue_ctor (queueSize : nat) : Exception + MessageQueue Message :=
  if queueSize =? 0
  then inl (invalid_argument
              "Invalid MessageQueue size: size should be greater than zero.")
  else inr (mkQueue [] queueSize State.Running).

(** [IsClosed] (MessageQueue.h:149-152). *)
Definition IsClosed q : bool :=
  match m_state q with
  | State.Closed => true
  | State.Running => false
  end.

(** [m_queue.emplace_back(...)]. *)
Definition emplace_back m q : MessageQueue Message :=
  mkQueue (m_queue q ++ [m]) (m_queueSize q) (m_state q).

(** [m_queue.pop_front()] and [m_queue.erase(it)]: the list with one
    position removed. *)
Definition erase (it : nat) q : MessageQueue Message :=
  mkQueue (delete it (m_queue q)) (m_queueSize q) (m_state q).

(** [m_pushCv.wait(lk, pred)] and what follows it (MessageQueue.h:63-70),
    entered with the lock held and re-entered at every wake-up. *)
Definition Push_wait m q : Outcome Message Result :=
  if IsClosed q || (length (m_queue q) <? m_queueSize q)
  then if IsClosed q
       then Returns Closed q
       else Returns Ok (emplace_back m q)
  else Suspends m_pushCv q.

(** [Push] (MessageQueue.h:45-76). *)
Definition Push (Policy : OperationPolicy) m q : Outcome Message Result :=
  if IsClosed q then Returns Closed q
  else if length (m_queue q) =? m_queueSize q
       then match Policy with
            | NonBlocking => Returns Full q
            | Blocking => Push_wait m q
            end
       else Returns Ok (emplace_back m q).

(** [Close] (MessageQueue.h:140-146). *)
Definition Close q : Result * MessageQueue Message :=
  (Ok, mkQueue (m_queue q) (m_queueSize q) State.Closed).

(** [std::find_if]: the position of the first element satisfying the
    predicate, [length l] (the end iterator) when there is none. *)
Fixpoint find_if (predicate : Message → bool) (l : list Message) : nat :=
  match l with
  | [] => 0
  | x :: l' => if predicate x then 0 else S (find_if predicate l')
  end.

Context `{!DefaultConstructible Message}.

(** Lines 104-110 of [Pop]: move the front out, [pop_front], return it. *)
Definition Pop_front q : Outcome Message (Message * Result) :=
  match m_queue q with
  | x :: _ => Returns (x, Ok) (erase 0 q)
  | [] => Undefined q (* front() of an empty list *)
  end.

(** [m_popCv.wait(lk, pred)] and what follows it (MessageQueue.h:97-110). *)
Definition Pop_wait q : Outcome Message (Message * Result) :=
  if IsClosed q || negb (bool_decide (m_queue q = []))
  then if IsClosed q
       then Returns (value_init, Closed) q
       else Pop_front q
  else Suspends m_popCv q.

(** [Pop] (MessageQueue.h:78-111). *)
Definition Pop (Policy : OperationPolicy) q : Outcome Message (Message * Result) :=
  if IsClosed q then Returns (value_init, Closed) q
  else if bool_decide (m_queue q = [])
       then match Policy with
            | NonBlocking => Returns (value_init, Empty) q
            | Blocking => Pop_wait q
            end
       else Pop_front q.

(** [Get] (MessageQueue.h:114-137).  An iterator is a position; it equals
    [m_queue.end()] exactly when the position holds no element. *)
Definition Get (predicate : Message → bool) q : Outcome Message (Message * Result) :=
  if IsClosed q then Returns (value_init, Closed) q
  else if bool_decide (m_queue q = [])
       then Returns (value_init, Empty) q
       else let msgIt := find_if predicate (m_queue q) in
            match m_queue q !! msgIt with
            | None => Returns (value_init, NotFound) q
            | Some x => Returns (x, Ok) (erase msgIt q)
            end.

(** *** Sequences of calls

    A sequence lists the calls made on one queue in the order in which
    they take effect.  [OpPushWake] and [OpPopWake] are the wake-ups of a
    call parked earlier: the thread re-enters the wait of its call. *)
Inductive Op : Type :=
| OpPush (Policy : OperationPolicy) (m : Message)
| OpPop (Policy : OperationPolicy)
| OpGet (predicate : Message → bool)
| OpClose
| OpPushWake (m : Message)
| OpPopWake.

(** What a call contributes to the history of the queue. *)
Inductive Event : Type :=
| Accepted (m : Message)   (* a Push returned Ok *)
| Popped (m : Message)     (* a Pop returned Ok *)
| Matched (m : Message).   (* a Get returned Ok *)

Definition push_event m (o : Outcome Message Result) : list Event :=
  match o with
  | Returns Ok _ => [Accepted m]
  | _ => []
  end.

Definition take_event (ev : Message → Event)
    (o : Outcome Message (Message * Result)) : list Event :=
  match o with
  | Returns (x, Ok) _ => [ev x]
  | _ => []
  end.

Definition apply_op (o : Op) q : MessageQueue Message * list Event :=
  match o with
  | OpPush Policy m =>
      let r := Push Policy m q in (state_after r, push_event m r)
  | OpPop Policy =>
      let r := Pop Policy q in (state_after r, take_event Popped r)
  | OpGet predicate =>
      let r := Get predicate q in (state_after r, take_event Matched r)
  | OpClose => ((Close q).2, [])
  | OpPushWake m =>
      let r := Push_wait m q in (state_after r, push_event m r)
  | OpPopWake =>
      let r := Pop_wait q in (state_after r, take_event Popped r)
  end.

(** The queue after a sequence of calls, and the history it produced. *)
Fixpoint run (ops : list Op) q : MessageQueue Message * list Event :=
  match ops with
  | [] => (q, [])
  | o :: ops' =>
      let '(q1, es1) := apply_op o q in
      let '(q2, es2) := run ops' q1 in
      (q2, es1 ++ es2)
  end.

(** Every state the queue goes through, the first one included. *)
Fixpoint states (ops : list Op) q : list (MessageQueue Message) :=
  match ops with
  | [] => [q]
  | o :: ops' => q :: states ops' (apply_op o q).1
  end.

Definition pushed (es : list Event) : list Message :=
  omap (λ e, match e with Accepted m => Some m | _ => None end) es.

Definition popped (es : list Event) : list Message :=
  omap (λ e, match e with Popped m => Some m | _ => None end) es.

Definition matched (es : list Event) : list Message :=
  omap (λ e, match e with Matched m => Some m | _ => None end) es.

(** The four things a call, or a step of a thread, can do to the buffer
    [b], with the event that records it: nothing, append at the tail,
    remove the head, remove one position. *)
Definition buffer_effect (b b' : list Message) (es : list Event) : Prop :=
  (b' = b ∧ es = []) ∨
  (∃ m, b' = b ++ [m] ∧ es = [Accepted m]) ∨
  (∃ x, b = x :: b' ∧ es = [Popped x]) ∨
  (∃ i x, b !! i = Some x ∧ b' = delete i b ∧ es = [Matched x]).

(** The order property of a history [es] that leads from buffer [b] to
    buffer [b']. *)
Definition in_order (b : list Message) (es : list Event) (b' : list Message) : Prop :=
  popped es ++ b' `sublist_of` b ++ pushed es ∧
  b ++ pushed es ≡ₚ popped es ++ b' ++ matched es.

End Calls.

(** ** Thread layer

    Every thread runs one call; a thread of a program that makes several
    calls is a succession of such threads.  A program point is a source
    line of MessageQueue.h; a step executes that line.  The standard
    library primitives are modelled after the C++ standard:

    - [std::unique_lock lk{m_mtx}] blocks until the mutex is free and takes
      it; leaving the scope of [lk] (also by [return]) releases the mutex;
    - [cv.wait(lk, pred)] is [while (!pred()) cv.wait(lk);] and [cv.wait(lk)]
      atomically releases the mutex and blocks the thread on [cv]; once
      unblocked the thread re-acquires the mutex before [wait] returns;
    - [cv.notify_one()] unblocks one of the threads blocked on [cv] at that
      moment, if there is one; [cv.notify_all()] unblocks all of them;
    - a blocked thread may also be unblocked spuriously;
    - [m_state] is atomic: it is loaded and stored without the mutex. *)

Inductive PushPc : Set :=
| Push48          (* if (IsClosed()) *)
| Push52          (* std::unique_lock lk{ m_mtx } *)
| Push53          (* if (m_queue.size() == m_queueSize) *)
| Push63_pred     (* wait: the predicate is evaluated *)
| Push63_wait     (* wait: the predicate was false, wait(lk) is called *)
| Push63_blocked  (* wait(lk): mutex released, blocked on m_pushCv *)
| Push63_relock   (* wait(lk): unblocked, re-acquiring the mutex *)
| Push65          (* if (IsClosed()) *)
| Push70          (* m_queue.emplace_back(...) *)
| Push71          (* end of the scope of lk *)
| Push73.         (* m_popCv.notify_one(); return Result::Ok *)

Inductive PopPc (Message : Type) : Type :=
| Pop81           (* if (IsClosed()) *)
| Pop86           (* std::unique_lock lk{ m_mtx } *)
| Pop87           (* if (m_queue.empty()) *)
| Pop97_pred      (* wait: the predicate is evaluated *)
| Pop97_wait      (* wait: the predicate was false, wait(lk) is called *)
| Pop97_blocked   (* wait(lk): mutex released, blocked on m_popCv *)
| Pop97_relock    (* wait(lk): unblocked, re-acquiring the mutex *)
| Pop99           (* if (IsClosed()) *)
| Pop104          (* msg = std::move(m_queue.front()); m_queue.pop_front() *)
| Pop106 (msg : Message)   (* end of the scope of lk *)
| Pop108 (msg : Message).  (* m_pushCv.notify_one(); return { msg, Ok } *)
Arguments Pop81 {Message}.
Arguments Pop86 {Message}.
Arguments Pop87 {Message}.
Arguments Pop97_pred {Message}.
Arguments Pop97_wait {Message}.
Arguments Pop97_blocked {Message}.
Arguments Pop97_relock {Message}.
Arguments Pop99 {Message}.
Arguments Pop104 {Message}.
Arguments Pop106 {Message} _.
Arguments Pop108 {Message} _.

Inductive GetPc (Message : Type) : Type :=
| Get117          (* if (IsClosed()) *)
| Get122          (* std::unique_lock lk{ m_mtx } *)
| Get123          (* if (m_queue.empty()) *)
| Get126          (* msgIt = std::find_if(...); if (msgIt == m_queue.end()) *)
| Get130 (msgIt : nat)     (* msg = std::move( *msgIt); m_queue.erase(msgIt) *)
| Get132 (msg : Message)   (* end of the scope of lk *)
| Get134 (msg : Message).  (* m_pushCv.notify_one(); return { msg, Ok } *)
Arguments Get117 {Message}.
Arguments Get122 {Message}.
Arguments Get123 {Message}.
Arguments Get126 {Message}.
Arguments Get130 {Message} _.
Arguments Get132 {Message} _.
Arguments Get134 {Message} _.

Inductive ClosePc : Set :=
| Close142        (* m_state.store(State::Closed) *)
| Close143        (* m_popCv.notify_all() *)
| Close144.       (* m_pushCv.notify_all(); return Result::Ok *)

(** What a call hands back to its caller. *)
Inductive Value (Message : Type) : Type :=
| VResult (r : Result)
| VPair (mr : Message * Result).
Arguments VResult {Message} _.
Arguments VPair {Message} _.

Inductive Thread (Message : Type) : Type :=
| InPush (Policy : OperationPolicy) (m : Message) (pc : PushPc)
| InPop (Policy : OperationPolicy) (pc : PopPc Message)
| InGet (predicate : Message → bool) (pc : GetPc Message)
| InClose (pc : ClosePc)
| Finished (v : Value Message).
Arguments InPush {Message} _ _ _.
Arguments InPop {Message} _ _.
Arguments InGet {Message} _ _.
Arguments InClose {Message} _.
Arguments Finished {Message} _.

(** The queue object shared by the threads: data members, the owner of
    [m_mtx] if it is taken, and the threads themselves (a thread is blocked
    on a condition variable exactly when it stands at the blocked point of
    the corresponding wait). *)
Record Machine (Message : Type) : Type := mkMachine {
  queue : MessageQueue Message;
  m_mtx : option nat;
  threads : list (Thread Message)
}.
Arguments mkMachine {Message} _ _ _.
Arguments queue {Message} _.
Arguments m_mtx {Message} _.
Arguments threads {Message} _.

(** A scheduler decision: thread [t] executes its next line ([w] is the
    thread a [notify_one] in that line unblocks), or the blocked thread [t]
    wakes up spuriously. *)
Inductive Label : Set :=
| Run (t w : nat)
| SpuriousWake (t : nat).

Section Threads.
Context {Message : Type} `{!DefaultConstructible Message}.
Implicit Types (σ : Machine Message) (th : Thread Message) (t w : nat).

Definition waiting_on (cv : CondVar) th : bool :=
  match cv, th with
  | m_pushCv, InPush _ _ Push63_blocked => true
  | m_popCv, InPop _ Pop97_blocked => true
  | _, _ => false
  end.

Definition unblock th : Thread Message :=
  match th with
  | InPush Policy m Push63_blocked => InPush Policy m Push63_relock
  | InPop Policy Pop97_blocked => InPop Policy Pop97_relock
  | _ => th
  end.

Definition notify_all (cv : CondVar) (ths : list (Thread Message)) :
    list (Thread Message) :=
  (λ th, if waiting_on cv th then unblock th else th) <$> ths.

(** [notify_one]: no effect when nobody is blocked on [cv]; otherwise the
    chosen thread [w] must be one of the blocked ones. *)
Definition notify_one (cv : CondVar) w (ths : list (Thread Message)) :
    option (list (Thread Message)) :=
  if existsb (waiting_on cv) ths
  then match ths !! w with
       | Some th => if waiting_on cv th then Some (<[w:=unblock th]> ths) else None
       | None => None
       end
  else Some ths.

Definition goto σ t th : option (Machine Message) :=
  Some (mkMachine (queue σ) (m_mtx σ) (<[t:=th]> (threads σ))).

Definition lock σ t th : option (Machine Message) :=
  match m_mtx σ with
  | None => Some (mkMachine (queue σ) (Some t) (<[t:=th]> (threads σ)))
  | Some _ => None
  end.

Definition unlock σ t th : option (Machine Message) :=
  Some (mkMachine (queue σ) None (<[t:=th]> (threads σ))).

Definition Push_step σ t w (Policy : OperationPolicy) (m : Message) (pc : PushPc) :
    option (Machine Message) :=
  let q := queue σ in
  let at_ pc' := InPush Policy m pc' in
  match pc with
  | Push48 =>
      if IsClosed q then goto σ t (Finished (VResult Closed)) else goto σ t (at_ Push52)
  | Push52 => lock σ t (at_ Push53)
  | Push53 =>
      if length (m_queue q) =? m_queueSize q
      then match Policy with
           | NonBlocking => unlock σ t (Finished (VResult Full))
           | Blocking => goto σ t (at_ Push63_pred)
           end
      else goto σ t (at_ Push70)
  | Push63_pred =>
      if IsClosed q || (length (m_queue q) <? m_queueSize q)
      then goto σ t (at_ Push65)
      else goto σ t (at_ Push63_wait)
  | Push63_wait => unlock σ t (at_ Push63_blocked)
  | Push63_blocked => None
  | Push63_relock => lock σ t (at_ Push63_pred)
  | Push65 =>
      if IsClosed q then unlock σ t (Finished (VResult Closed)) else goto σ t (at_ Push70)
  | Push70 =>
      Some (mkMachine (emplace_back m q) (m_mtx σ) (<[t:=at_ Push71]> (threads σ)))
  | Push71 => unlock σ t (at_ Push73)
  | Push73 =>
      ths ← notify_one m_popCv w (threads σ);
      Some (mkMachine q (m_mtx σ) (<[t:=Finished (VResult Ok)]> ths))
  end.

Definition Pop_step σ t w (Policy : OperationPolicy) (pc : PopPc Message) :
    option (Machine Message) :=
  let q := queue σ in
  let at_ pc' := InPop Policy pc' in
  match pc with
  | Pop81 =>
      if IsClosed q then goto σ t (Finished (VPair (value_init, Closed)))
      else goto σ t (at_ Pop86)
  | Pop86 => lock σ t (at_ Pop87)
  | Pop87 =>
      if bool_decide (m_queue q = [])
      then match Policy with
           | NonBlocking => unlock σ t (Finished (VPair (value_init, Empty)))
           | Blocking => goto σ t (at_ Pop97_pred)
           end
      else goto σ t (at_ Pop104)
  | Pop97_pred =>
      if IsClosed q || negb (bool_decide (m_queue q = []))
      then goto σ t (at_ Pop99)
      else goto σ t (at_ Pop97_wait)
  | Pop97_wait => unlock σ t (at_ Pop97_blocked)
  | Pop97_blocked => None
  | Pop97_relock => lock σ t (at_ Pop97_pred)
  | Pop99 =>
      if IsClosed q then unlock σ t (Finished (VPair (value_init, Closed)))
      else goto σ t (at_ Pop104)
  | Pop104 =>
      match m_queue q with
      | x :: _ =>
          Some (mkMachine (erase 0 q) (m_mtx σ) (<[t:=at_ (Pop106 x)]> (threads σ)))
      | [] => None (* front() of an empty list *)
      end
  | Pop106 msg => unlock σ t (at_ (Pop108 msg))
  | Pop108 msg =>
      ths ← notify_one m_pushCv w (threads σ);
      Some (mkMachine q (m_mtx σ) (<[t:=Finished (VPair (msg, Ok))]> ths))
  end.

Definition Get_step σ t w (predicate : Message → bool) (pc : GetPc Message) :
    option (Machine Message) :=
  let q := queue σ in
  let at_ pc' := InGet predicate pc' in
  match pc with
  | Get117 =>
      if IsClosed q then goto σ t (Finished (VPair (value_init, Closed)))
      else goto σ t (at_ Get122)
  | Get122 => lock σ t (at_ Get123)
  | Get123 =>
      if bool_decide (m_queue q = [])
      then unlock σ t (Finished (VPair (value_init, Empty)))
      else goto σ t (at_ Get126)
  | Get126 =>
      let msgIt := find_if predicate (m_queue q) in
      match m_queue q !! msgIt with
      | None => unlock σ t (Finished (VPair (value_init, NotFound)))
      | Some _ => goto σ t (at_ (Get130 msgIt))
      end
  | Get130 msgIt =>
      match m_queue q !! msgIt with
      | Some x =>
          Some (mkMachine (erase msgIt q) (m_mtx σ) (<[t:=at_ (Get132 x)]> (threads σ)))
      | None => None (* dereferencing the end iterator *)
      end
  | Get132 msg => unlock σ t (at_ (Get134 msg))
  | Get134 msg =>
      ths ← notify_one m_pushCv w (threads σ);
      Some (mkMachine q (m_mtx σ) (<[t:=Finished (VPair (msg, Ok))]> ths))
  end.

Definition Close_step σ t (pc : ClosePc) : option (Machine Message) :=
  let q := queue σ in
  match pc with
  | Close142 =>
      Some (mkMachine (Close q).2 (m_mtx σ) (<[t:=InClose Close143]> (threads σ)))
  | Close143 =>
      Some (mkMachine q (m_mtx σ) (<[t:=InClose Close144]> (notify_all m_popCv (threads σ))))
  | Close144 =>
      Some (mkMachine q (m_mtx σ)
              (<[t:=Finished (VResult Ok)]> (notify_all m_pushCv (threads σ))))
  end.

(** One step of the machine; [None] when the decision is not enabled. *)
Definition step (l : Label) σ : option (Machine Message) :=
  match l with
  | Run t w =>
      th ← threads σ !! t;
      match th with
      | InPush Policy m pc => Push_step σ t w Policy m pc
      | InPop Policy pc => Pop_step σ t w Policy pc
      | InGet predicate pc => Get_step σ t w predicate pc
      | InClose pc => Close_step σ t pc
      | Finished _ => None
      end
  | SpuriousWake t =>
      th ← threads σ !! t;
      if waiting_on m_pushCv th || waiting_on m_popCv th
      then goto σ t (unblock th)
      else None
  end.

(** A schedule is a list of decisions, executed from left to right. *)
Fixpoint exec (ls : list Label) σ : option (Machine Message) :=
  match ls with
  | [] => Some σ
  | l :: ls' => σ' ← step l σ; exec ls' σ'
  end.

(** The event of a step: the lines that change [m_queue] are 70, 104-105
    and 130-131. *)
Definition observe (l : Label) σ : list (Event (Message:=Message)) :=
  match l with
  | Run t _ =>
      match threads σ !! t with
      | Some (InPush _ m Push70) => [Accepted m]
      | Some (InPop _ Pop104) =>
          match m_queue (queue σ) with
          | x :: _ => [Popped x]
          | [] => []
          end
      | Some (InGet _ (Get130 msgIt)) =>
          match m_queue (queue σ) !! msgIt with
          | Some x => [Matched x]
          | None => []
          end
      | _ => []
      end
  | SpuriousWake _ => []
  end.

(** The history of a schedule. *)
Fixpoint trace (ls : list Label) σ : list (Event (Message:=Message)) :=
  match ls with
  | [] => []
  | l :: ls' =>
      match step l σ with
      | Some σ' => observe l σ ++ trace ls' σ'
      | None => []
      end
  end.

(** The calls a thread can be started on, their entry points, and the
    call layer function each of them is. *)
Inductive Call : Type :=
| CallPush (Policy : OperationPolicy) (m : Message)
| CallPop (Policy : OperationPolicy)
| CallGet (predicate : Message → bool)
| CallClose.

Definition entry (c : Call) : Thread Message :=
  match c with
  | CallPush Policy m => InPush Policy m Push48
  | CallPop Policy => InPop Policy Pop81
  | CallGet predicate => InGet predicate Get117
  | CallClose => InClose Close142
  end.

Definition as_value {A} (f : A → Value Message) (o : Outcome Message A) :
    Outcome Message (Value Message) :=
  match o with
  | Returns a q => Returns (f a) q
  | Suspends cv q => Suspends cv q
  | Undefined q => Undefined q
  end.

Definition call (c : Call) (q : MessageQueue Message) : Outcome Message (Value Message) :=
  match c with
  | CallPush Policy m => as_value VResult (Push Policy m q)
  | CallPop Policy => as_value VPair (Pop Policy q)
  | CallGet predicate => as_value VPair (Get predicate q)
  | CallClose => Returns (VResult (Close q).1) (Close q).2
  end.

(** The machine in which thread 0 makes call [c] on queue [q], alone. *)
Definition solo (c : Call) (q : MessageQueue Message) : Machine Message :=
  mkMachine q None [entry c].

(** *** Invariant of the machine

    A thread between taking and releasing the mutex is its owner. *)
Definition holds_lock th : bool :=
  match th with
  | InPush _ _ pc =>
      match pc with
      | Push53 | Push63_pred | Push63_wait | Push65 | Push70 | Push71 => true
      | _ => false
      end
  | InPop _ pc =>
      match pc with
      | Pop87 | Pop97_pred | Pop97_wait | Pop99 | Pop104 | Pop106 _ => true
      | _ => false
      end
  | InGet _ pc =>
      match pc with
      | Get123 | Get126 | Get130 _ | Get132 _ => true
      | _ => false
      end
  | InClose _ | Finished _ => false
  end.

(** What a thread has established about the queue at its program point. *)
Definition local_ok (q : MessageQueue Message) th : Prop :=
  match th with
  | InPush _ _ Push65 => IsClosed q = true ∨ length (m_queue q) < m_queueSize q
  | InPush _ _ Push70 => length (m_queue q) < m_queueSize q
  | InPop _ Pop99 => IsClosed q = true ∨ m_queue q ≠ []
  | InPop _ Pop104 => m_queue q ≠ []
  | InGet _ (Get130 msgIt) => msgIt < length (m_queue q)
  | _ => True
  end.

Record Inv σ : Prop := mkInv {
  inv_capacity : length (m_queue (queue σ)) ≤ m_queueSize (queue σ);
  inv_mutex : ∀ t th, threads σ !! t = Some th → holds_lock th = true → m_mtx σ = Some t;
  inv_local : ∀ t th, threads σ !! t = Some th → local_ok (queue σ) th
}.

(** A finished Pop or Get that failed hands back [Message{}]. *)
Definition returned_ok th : Prop :=
  match th with
  | Finished (VPair (x, r)) => r ≠ Ok → x = value_init
  | _ => True
  end.

(** [ths'] is [ths] with some blocked threads unblocked. *)
Definition woken (ths ths' : list (Thread Message)) : Prop :=
  ∀ t th', ths' !! t = Some th' →
    ∃ th, ths !! t = Some th ∧ (th' = th ∨ th' = unblock th).

(** The machine right after construction: the queue the constructor
    built, the mutex free, every thread at the entry of its call. *)
Definition boot (q : MessageQueue Message) (cs : list Call) : Machine Message :=
  mkMachine q None (entry <$> cs).

End Threads.

(** *** Two threads: a blocking call and a Close that races its wait *)

(** Capacity 1, buffer [X]; thread 0 calls Push<Blocking>(Y), thread 1
    calls Close. *)
Definition push_vs_close : Machine string :=
  boot (mkQueue ["X"] 1 State.Running) [CallPush Blocking "Y"; CallClose].

(** Empty buffer; thread 0 calls Pop<Blocking>, thread 1 calls Close. *)
Definition pop_vs_close : Machine string :=
  boot (mkQueue [] 2 State.Running) [CallPop Blocking; CallClose].

(** Thread 0 enters its call, takes the mutex, finds the queue full (or
    empty), evaluates the wait predicate to false; thread 1 then runs the
    whole of Close; thread 0 then blocks in [wait(lk)]. *)
Definition close_in_the_window : list Label :=
  [Run 0 0; Run 0 0; Run 0 0; Run 0 0; Run 1 0; Run 1 0; Run 1 0; Run 0 0].

(** *** Three threads: a blocked Push handed its slot by a Pop *)

(** Capacity 1.  Thread 0 pushes X; thread 1 calls Push<Blocking>(Y) and
    blocks on the full queue; thread 2 pops X and its [notify_one] unblocks
    thread 1, which then appends Y. *)
Definition handoff : Machine string :=
  boot (mkQueue [] 1 State.Running)
    [CallPush NonBlocking "X"; CallPush Blocking "Y"; CallPop NonBlocking].

Definition handoff_schedule : list Label :=
  replicate 6 (Run 0 0) ++ replicate 5 (Run 1 0) ++
  replicate 5 (Run 2 0) ++ [Run 2 1] ++ replicate 6 (Run 1 0).

(** ** The demo program (main.cpp)

    Three reader threads and five writer threads share one queue of
    capacity 2 (main.cpp:38, 70, 117).  Each thread loops over: sleep, one
    call on the queue chosen from its index, one line of output.  The
    choice of the call and the line printed are embedded here; the sleeps
    and the scheduling of the threads are not. *)

(** [IsNonBlockingPop], [IsBlockingPop], [IsNonBlockingPush]
    (main.cpp:45-61); the last one converts [context % 2] to [bool]. *)
Definition IsNonBlockingPop (context : nat) : bool := context mod 3 =? 0.

Definition IsBlockingPop (context : nat) : bool := context mod 3 =? 1.

Definition IsNonBlockingPush (context : nat) : bool := negb (context mod 2 =? 0).

(** [std::to_string] of a [std::size_t] and [operator<<] of an [int]: the
    decimal digits. *)
Definition to_string (i : nat) : string := pretty i.

(** [static_cast<std::underlying_type_t<test_task::Result>>(result)]. *)
Definition result_code (r : Result) : nat :=
  match r with
  | Ok => 0
  | Empty => 1
  | Full => 2
  | NotFound => 3
  | Closed => 4
  end.

(** [Log] (main.cpp:20-24): the arguments in a row, then a line feed. *)
Definition Log (args : list string) : string :=
  foldr String.append (String "010"%char EmptyString) args.

Definition reader_id (i : nat) : string := "Reader " +:+ to_string i.

Definition writer_id (i : nat) : string := "Writer " +:+ to_string i.

(** The predicate of the reader that calls Get (main.cpp:92). *)
Definition is_3 (val : string) : bool := bool_decide (val = "3").

(** The call of reader [i] (main.cpp:87-92). *)
Definition reader_take (i : nat) (q : MessageQueue string) :
    Outcome string (string * Result) :=
  if IsNonBlockingPop i then Pop NonBlocking q
  else if IsBlockingPop i then Pop Blocking q
  else Get is_3 q.

(** The line reader [i] prints (main.cpp:95-103). *)
Definition reader_log (i : nat) (mr : string * Result) : string :=
  match mr.2 with
  | Ok => Log [reader_id i; ": "; mr.1]
  | result =>
      Log [reader_id i; ": An error occurred while popping. Code: ";
           to_string (result_code result)]
  end.

(** The message writer [i] pushes and its call (main.cpp:126-136). *)
Definition writer_message (i : nat) : string :=
  if IsNonBlockingPush i then to_string i else writer_id i.

Definition writer_put (i : nat) (q : MessageQueue string) : Outcome string Result :=
  if IsNonBlockingPush i then Push NonBlocking (to_string i) q
  else Push Blocking (writer_id i) q.

(** The line writer [i] prints (main.cpp:139-147). *)
Definition writer_log (i : nat) (result : Result) : string :=
  match result with
  | Ok => Log [writer_id i; ": push operation succeeded."]
  | _ =>
      Log [writer_id i; ": An error occurred while pushing. Code: ";
           to_string (result_code result)]
  end.

(** One turn of the loop of a reader or a writer, sleep apart: the queue
    afterwards and the line printed, when the call returns. *)
Definition reader_iteration (i : nat) (q : MessageQueue string) :
    Outcome string string :=
  match reader_take i q with
  | Returns mr q' => Returns (reader_log i mr) q'
  | Suspends cv q' => Suspends cv q'
  | Undefined q' => Undefined q'
  end.

Definition writer_iteration (i : nat) (q : MessageQueue string) :
    Outcome string string :=
  match writer_put i q with
  | Returns result q' => Returns (writer_log i result) q'
  | Suspends cv q' => Suspends cv q'
  | Undefined q' => Undefined q'
  end.

(** * Theorems *)

(** ** Call layer *)

Section CallFacts.
Context {Message : Type} `{!DefaultConstructible Message}.
Implicit Types (q : MessageQueue Message) (m : Message).

(** [find_if] stops at the first match. *)
Lemma find_if_first predicate (l1 l2 : list Message) x :
  Forall (λ y, predicate y = false) l1 → predicate x = true →
  find_if predicate (l1 ++ x :: l2) = length l1.
Proof.
  intros Hl1 Hx. induction Hl1 as [|y l1 Hy _ IH]; simpl.
  - by rewrite Hx.
  - by rewrite Hy, IH.
Qed.

(** [find_if] returns the end iterator when nothing matches. *)
Lemma find_if_none predicate (l : list Message) :
  Forall (λ y, predicate y = false) l → find_if predicate l = length l.
Proof.
  induction 1 as [|y l Hy _ IH]; simpl; [done|]. by rewrite Hy, IH.
Qed.

(** What [find_if] points at satisfies the predicate, nothing before it
    does. *)
Lemma find_if_lookup predicate (l : list Message) x :
  l !! find_if predicate l = Some x →
  predicate x = true ∧
  Forall (λ y, predicate y = false) (take (find_if predicate l) l).
Proof.
  induction l as [|y l IH]; simpl; [done|].
  destruct (predicate y) eqn:Hy; simpl.
  - intros [= ->]. auto.
  - intros Hx. destruct (IH Hx) as [? ?]. auto.
Qed.

(** A sublist that is not shorter is the whole list. *)
Lemma sublist_full (l k : list Message) :
  l `sublist_of` k → length k ≤ length l → l = k.
Proof.
  induction 1 as [|x l k Hs IH|x l k Hs IH]; simpl; intros Hlen; [done| |].
  - f_equal. apply IH. lia.
  - apply sublist_length in Hs. lia.
Qed.

(** What a single call does to the buffer and to the history. *)
Lemma apply_op_buffer (o : Op) q :
  buffer_effect (m_queue q) (m_queue (apply_op o q).1) (apply_op o q).2.
Proof.
  unfold buffer_effect.
  destruct o as [Policy m|Policy|predicate| |m|]; simpl;
    unfold Push, Push_wait, Pop, Pop_wait, Pop_front, Get;
    destruct (IsClosed q); simpl; auto.
  - destruct (length (m_queue q) =? m_queueSize q); simpl; [|eauto 10].
    destruct Policy; simpl; [|auto].
    destruct (length (m_queue q) <? m_queueSize q); simpl; eauto 10.
  - destruct (m_queue q) as [|x l] eqn:Hq; simpl.
    + destruct Policy; simpl; rewrite ?Hq; simpl; auto.
    + rewrite ?Hq; simpl. eauto 10.
  - destruct (m_queue q) as [|x l] eqn:Hq; simpl; [auto|].
    destruct ((x :: l) !! _) as [y|] eqn:Hy; simpl; [|auto].
    rewrite ?Hq. do 3 right. eauto 10.
  - destruct (length (m_queue q) <? m_queueSize q); simpl; eauto 10.
  - destruct (m_queue q) as [|x l] eqn:Hq; simpl; [auto|].
    rewrite Hq; simpl. eauto 10.
Qed.

(** A call never changes the capacity, never reopens the queue, and keeps
    the buffer within the capacity. *)
Lemma apply_op_capacity (o : Op) q :
  m_queueSize (apply_op o q).1 = m_queueSize q ∧
  (IsClosed q = true → IsClosed (apply_op o q).1 = true) ∧
  (length (m_queue q) ≤ m_queueSize q →
   length (m_queue (apply_op o q).1) ≤ m_queueSize q).
Proof.
  destruct o as [Policy m|Policy|predicate| |m|]; simpl;
    unfold Push, Push_wait, Pop, Pop_wait, Pop_front, Get;
    destruct (IsClosed q) eqn:Hc; simpl; try done.
  - destruct (Nat.eqb_spec (length (m_queue q)) (m_queueSize q)); simpl.
    + destruct Policy; simpl; [|done].
      destruct (Nat.ltb_spec (length (m_queue q)) (m_queueSize q)); simpl; [lia|done].
    + rewrite length_app; simpl. split_and!; [done|done|lia].
  - destruct (m_queue q) as [|x l] eqn:Hq; simpl.
    + destruct Policy; simpl; rewrite ?Hq; simpl; rewrite ?Hq; done.
    + rewrite ?Hq; simpl. rewrite ?Hq; simpl. split_and!; [done|done|lia].
  - destruct (m_queue q) as [|x l] eqn:Hq; simpl; rewrite ?Hq; [done|].
    destruct ((x :: l) !! _) as [y|] eqn:Hy; simpl; rewrite ?Hq; [|done].
    split_and!; [done|done|]. intros Hle.
    pose proof (length_delete (x :: l) _ (mk_is_Some _ _ Hy)). simpl in *. lia.
  - destruct (Nat.ltb_spec (length (m_queue q)) (m_queueSize q)); simpl; [|done].
    rewrite length_app; simpl. split_and!; [done|done|lia].
  - destruct (m_queue q) as [|x l] eqn:Hq; simpl; rewrite ?Hq; simpl; rewrite ?Hq;
      [done|].
    simpl. split_and!; [done|done|lia].
Qed.

Lemma run_cons (o : Op) ops q :
  run (o :: ops) q =
  ((run ops (apply_op o q).1).1, (apply_op o q).2 ++ (run ops (apply_op o q).1).2).
Proof. simpl. destruct (apply_op o q), (run ops _). done. Qed.

Lemma pushed_app (es1 es2 : list (Event (Message:=Message))) :
  pushed (es1 ++ es2) = pushed es1 ++ pushed es2.
Proof. apply omap_app. Qed.

Lemma popped_app (es1 es2 : list (Event (Message:=Message))) :
  popped (es1 ++ es2) = popped es1 ++ popped es2.
Proof. apply omap_app. Qed.

Lemma matched_app (es1 es2 : list (Event (Message:=Message))) :
  matched (es1 ++ es2) = matched es1 ++ matched es2.
Proof. apply omap_app. Qed.

Lemma in_order_nil (b : list Message) : in_order b [] b.
Proof. unfold in_order. simpl. rewrite !app_nil_r. done. Qed.

(** One more effect in front of a history that is in order. *)
Lemma in_order_cons (b b1 b2 : list Message) es1 es2 :
  buffer_effect b b1 es1 → in_order b1 es2 b2 → in_order b (es1 ++ es2) b2.
Proof.
  unfold in_order. intros Heff [IHs IHp].
  rewrite pushed_app, popped_app, matched_app.
  destruct Heff
    as [[-> ->]|[(m & -> & ->)|[(x & -> & ->)|(i & x & Hx & -> & ->)]]]; simpl.
  - done.
  - rewrite <-!(assoc_L (++)) in IHs, IHp. done.
  - split; [by constructor|]. by f_equiv.
  - split.
    + etrans; [exact IHs|]. apply sublist_app; [apply sublist_delete|done].
    + rewrite (delete_Permutation _ _ _ Hx). simpl.
      rewrite IHp. rewrite !Permutation_middle. done.
Qed.

(** The popped messages followed by the buffer are the initial buffer
    followed by the accepted messages, with the matched ones taken out. *)
Lemma run_order ops q : in_order (m_queue q) (run ops q).2 (m_queue (run ops q).1).
Proof.
  revert q. induction ops as [|o ops IH]; intros q.
  - apply in_order_nil.
  - rewrite run_cons. simpl. eapply in_order_cons; [apply apply_op_buffer|apply IH].
Qed.

(** Without matched extractions nothing is left out. *)
Lemma in_order_full (b b' : list Message) es :
  in_order b es b' → matched es = [] → popped es ++ b' = b ++ pushed es.
Proof.
  intros [Hs Hp] Hm. apply sublist_full; [done|].
  rewrite Hm, app_nil_r in Hp. by rewrite Hp.
Qed.

Lemma states_invariant (P : MessageQueue Message → Prop) ops q :
  (∀ o s, P s → P (apply_op o s).1) → P q → Forall P (states ops q).
Proof.
  intros Hstep. revert q. induction ops as [|o ops IH]; intros q Hq; simpl.
  - by constructor.
  - constructor; [done|]. apply IH, Hstep, Hq.
Qed.

End CallFacts.

Section CallTheorems.
Context {Message : Type} `{!DefaultConstructible Message}.
Implicit Types (q : MessageQueue Message) (m : Message).

(** C9.  The constructor throws [std::invalid_argument] exactly when the
    requested size is 0; for every positive size it yields a running queue
    with an empty buffer and that size as its capacity. *)
Theorem ctor_spec (queueSize : nat) :
  ((∃ e, MessageQueue_ctor (Message:=Message) queueSize = inl e) ↔ queueSize = 0) ∧
  (∀ e, MessageQueue_ctor (Message:=Message) queueSize = inl e → ∃ what, e = invalid_argument what) ∧
  (0 < queueSize →
   MessageQueue_ctor (Message:=Message) queueSize = inr (mkQueue [] queueSize State.Running)).
Proof.
  unfold MessageQueue_ctor. destruct (Nat.eqb_spec queueSize 0) as [->|Hne].
  - split_and!; [split; eauto | intros e [= <-]; eauto | lia].
  - split_and!; [split; [intros [e [=]] | done] | intros e [=] | done].
Qed.

(** C1.  On a closed queue every Push, Pop and Get, whatever its policy,
    message or predicate, returns [Closed] and leaves the queue as it was,
    buffered messages included. *)
Theorem closed_is_terminal q :
  IsClosed q = true →
  (∀ Policy m, Push Policy m q = Returns Closed q) ∧
  (∀ Policy, Pop Policy q = Returns (value_init, Closed) q) ∧
  (∀ predicate, Get predicate q = Returns (value_init, Closed) q).
Proof.
  intros Hc. unfold Push, Pop, Get. rewrite Hc. eauto.
Qed.

(** C4.  NonBlocking Push on a running queue: [Full] and no change when the
    buffer holds [m_queueSize] messages; below that, the message is appended
    at the tail, the result is [Ok] and the buffer is one longer. *)
Theorem Push_NonBlocking_spec m q :
  IsClosed q = false →
  (length (m_queue q) = m_queueSize q → Push NonBlocking m q = Returns Full q) ∧
  (length (m_queue q) < m_queueSize q →
   ∃ q', Push NonBlocking m q = Returns Ok q' ∧
         m_queue q' = m_queue q ++ [m] ∧
         length (m_queue q') = S (length (m_queue q)) ∧
         m_queueSize q' = m_queueSize q ∧ m_state q' = m_state q).
Proof.
  intros Ho. unfold Push. rewrite Ho. split; intros Hlen.
  - by rewrite (proj2 (Nat.eqb_eq _ _) Hlen).
  - destruct (Nat.eqb_spec (length (m_queue q)) (m_queueSize q)); [lia|].
    eexists; split; [done|]. simpl. rewrite length_app. simpl. split_and!; [done|lia|done|done].
Qed.

(** C5.  NonBlocking Pop on a running queue: [(Message{}, Empty)] and no
    change when the buffer is empty; otherwise the head is removed and
    returned with [Ok], and the buffer is one shorter. *)
Theorem Pop_NonBlocking_spec q :
  IsClosed q = false →
  (m_queue q = [] → Pop NonBlocking q = Returns (value_init, Empty) q) ∧
  (∀ x l, m_queue q = x :: l →
   ∃ q', Pop NonBlocking q = Returns (x, Ok) q' ∧
         m_queue q' = l ∧
         S (length (m_queue q')) = length (m_queue q) ∧
         m_queueSize q' = m_queueSize q ∧ m_state q' = m_state q).
Proof.
  intros Ho. unfold Pop, Pop_front. rewrite Ho. split.
  - intros ->. done.
  - intros x l Hq. rewrite Hq. simpl.
    eexists; split; [done|]. unfold erase. rewrite Hq. done.
Qed.

(** C6.  Get on a running queue removes the first element, head to tail,
    that satisfies the predicate and returns it with [Ok]; the elements
    before and after it stay in their order.  When no element satisfies
    the predicate the result is [NotFound], when the buffer is empty it is
    [Empty]; in both cases nothing changes. *)
Theorem Get_spec predicate q :
  IsClosed q = false →
  (∀ l1 x l2,
     m_queue q = l1 ++ x :: l2 →
     Forall (λ y, predicate y = false) l1 → predicate x = true →
     Get predicate q = Returns (x, Ok) (mkQueue (l1 ++ l2) (m_queueSize q) (m_state q))) ∧
  (m_queue q ≠ [] → Forall (λ y, predicate y = false) (m_queue q) →
     Get predicate q = Returns (value_init, NotFound) q) ∧
  (m_queue q = [] → Get predicate q = Returns (value_init, Empty) q).
Proof.
  intros Ho. unfold Get. rewrite Ho. split_and!.
  - intros l1 x l2 Hq Hl1 Hx. rewrite Hq.
    rewrite bool_decide_eq_false_2 by (by destruct l1).
    rewrite find_if_first by done.
    rewrite list_lookup_middle by done.
    unfold erase. rewrite Hq, delete_middle. done.
  - intros Hne Hall. rewrite bool_decide_eq_false_2 by done.
    rewrite find_if_none by done.
    by rewrite lookup_ge_None_2.
  - intros ->. done.
Qed.

(** X12.  Conversely, what Get returns with [Ok] is the first element
    that satisfies the predicate, and the buffer is left without it. *)
Lemma Get_Ok_inv predicate q x q' :
  Get predicate q = Returns (x, Ok) q' →
  predicate x = true ∧
  ∃ l1 l2, m_queue q = l1 ++ x :: l2 ∧
           Forall (λ y, predicate y = false) l1 ∧
           q' = mkQueue (l1 ++ l2) (m_queueSize q) (m_state q).
Proof.
  unfold Get. destruct (IsClosed q); [done|].
  destruct (bool_decide _); [done|].
  destruct (m_queue q !! _) as [y|] eqn:Hy; [|done]. intros [= -> <-].
  destruct (find_if_lookup _ _ _ Hy) as [Hx Hbefore]. split; [done|].
  eexists _, _. split_and!; [|exact Hbefore|].
  - symmetry. by apply take_drop_middle.
  - unfold erase. by rewrite delete_take_drop.
Qed.

(** C8.  Close returns [Ok] in every state; closing twice is closing once;
    a closed queue stays closed through every later call, another Close
    included. *)
Theorem Close_spec q :
  (Close q).1 = Ok ∧
  Close (Close q).2 = Close q ∧
  IsClosed (Close q).2 = true ∧
  (IsClosed q = true → ∀ ops, Forall (λ s, IsClosed s = true) (states ops q)).
Proof.
  split_and!; [done..|].
  intros Hc ops. apply states_invariant; [|done].
  intros o s. apply apply_op_capacity.
Qed.

(** C10.  Whenever Pop (on entry or after a wake-up) or Get returns a
    result other than [Ok], the message of the pair is [Message{}].  The
    functions take the [DefaultConstructible] instance for that. *)
Theorem failed_take_is_default q x r q' :
  r ≠ Ok →
  (∀ Policy, Pop Policy q = Returns (x, r) q' → x = value_init) ∧
  (Pop_wait q = Returns (x, r) q' → x = value_init) ∧
  (∀ predicate, Get predicate q = Returns (x, r) q' → x = value_init).
Proof.
  intros Hr. unfold Pop, Pop_wait, Pop_front, Get.
  destruct (IsClosed q); simpl; [by split_and!; intros; simplify_eq|].
  destruct (m_queue q) as [|y l] eqn:Hq; simpl.
  - split_and!; [intros []|..]; intros; simplify_eq; done.
  - split_and!; [intros _|..]; intros; try (simplify_eq; done).
    destruct (_ !! _); simplify_eq; done.
Qed.

(** C3.  After construction with capacity [c], in every state a sequence
    of calls goes through, the buffer holds at most [c] messages (and the
    capacity is still [c]). *)
Theorem capacity_bound (c : nat) q ops :
  MessageQueue_ctor c = inr q →
  Forall (λ s, length (m_queue s) ≤ c ∧ m_queueSize s = c) (states ops q).
Proof.
  unfold MessageQueue_ctor. destruct (c =? 0); intros [= <-].
  apply states_invariant; [|simpl; split; [lia|done]].
  intros o s [Hlen Hcap]. destruct (apply_op_capacity o s) as (Hc & _ & Hl).
  split; [|congruence]. rewrite <-Hcap. apply Hl. lia.
Qed.

(** C2.  FIFO order.  For every sequence of calls, the messages returned
    by successful Pops are the messages accepted by successful Pushes, in
    insertion order: Push appends at the tail and Pop removes the head.
    Matched extractions apart, the k-th successful Pop returns the k-th
    message in insertion order (the messages the queue started with, then
    the accepted ones), so the popped sequence is a prefix of the accepted
    sequence, and the whole of it once the buffer is empty again.  With
    matched extractions the popped sequence followed by the buffer is
    still in insertion order, with exactly the messages taken by Get left
    out. *)
Theorem fifo_order ops q :
  popped (run ops q).2 ++ m_queue (run ops q).1
    `sublist_of` m_queue q ++ pushed (run ops q).2 ∧
  m_queue q ++ pushed (run ops q).2
    ≡ₚ popped (run ops q).2 ++ m_queue (run ops q).1 ++ matched (run ops q).2 ∧
  (matched (run ops q).2 = [] →
   popped (run ops q).2 ++ m_queue (run ops q).1 = m_queue q ++ pushed (run ops q).2) ∧
  (matched (run ops q).2 = [] → m_queue q = [] → m_queue (run ops q).1 = [] →
   popped (run ops q).2 = pushed (run ops q).2) ∧
  (matched (run ops q).2 = [] →
   ∀ k x, popped (run ops q).2 !! k = Some x →
          (m_queue q ++ pushed (run ops q).2) !! k = Some x) ∧
  (matched (run ops q).2 = [] →
   popped (run ops q).2 `prefix_of` m_queue q ++ pushed (run ops q).2) ∧
  popped (run ops q).2 `sublist_of` m_queue q ++ pushed (run ops q).2.
Proof.
  pose proof (run_order ops q) as Hord.
  pose proof (in_order_full _ _ _ Hord) as Heq.
  destruct Hord as [Hs Hp]. split_and!; [done..| | | |].
  - intros Hm H0 H1. specialize (Heq Hm). by rewrite H0, H1, app_nil_r in Heq.
  - intros Hm k x Hk. rewrite <-(Heq Hm). by apply lookup_app_l_Some.
  - intros Hm. exists (m_queue (run ops q).1). by rewrite (Heq Hm).
  - etrans; [|exact Hs]. by apply sublist_inserts_r.
Qed.

End CallTheorems.

Lemma ctor_spec_witness :
  MessageQueue_ctor (Message:=string) 2 = inr (mkQueue [] 2 State.Running).
Proof. apply (ctor_spec (Message:=string) 2). lia. Defined.

(** A closed queue that still holds a message: Pop answers [Closed], not
    the head. *)
Lemma closed_is_terminal_witness :
  Pop NonBlocking (mkQueue ["A"] 2 State.Closed)
  = Returns (value_init, Closed) (mkQueue ["A"] 2 State.Closed).
Proof.
  apply (closed_is_terminal (mkQueue ["A"] 2 State.Closed)). reflexivity.
Defined.

Lemma Push_NonBlocking_spec_witness :
  Push NonBlocking "C" (mkQueue ["A"; "B"] 2 State.Running)
  = Returns Full (mkQueue ["A"; "B"] 2 State.Running).
Proof.
  apply (Push_NonBlocking_spec "C" (mkQueue ["A"; "B"] 2 State.Running));
    reflexivity.
Defined.

Lemma Pop_NonBlocking_spec_witness :
  Pop NonBlocking (mkQueue ([] : list string) 2 State.Running)
  = Returns (value_init, Empty) (mkQueue [] 2 State.Running).
Proof.
  apply (Pop_NonBlocking_spec (mkQueue ([] : list string) 2 State.Running));
    reflexivity.
Defined.

Lemma Get_spec_witness :
  Get (λ x, bool_decide (x = "B")) (mkQueue ["A"; "B"; "C"] 3 State.Running)
  = Returns ("B", Ok) (mkQueue ["A"; "C"] 3 State.Running).
Proof.
  destruct (Get_spec (λ x, bool_decide (x = "B"))
              (mkQueue ["A"; "B"; "C"] 3 State.Running) eq_refl) as [Hfound _].
  apply (Hfound ["A"] "B" ["C"]).
  - reflexivity.
  - repeat constructor.
  - reflexivity.
Defined.

Lemma Close_spec_witness :
  Forall (λ s : MessageQueue string, IsClosed s = true)
    (states [OpPush Blocking "B"; OpPop Blocking; OpClose; OpPushWake "B"]
       (mkQueue ["A"] 2 State.Closed)).
Proof.
  apply (Close_spec (mkQueue ["A"] 2 State.Closed)). reflexivity.
Defined.

Lemma failed_take_is_default_witness :
  Pop Blocking (mkQueue ["A"] 2 State.Closed)
  = Returns ("", Closed) (mkQueue ["A"] 2 State.Closed) ∧
  "" = value_init.
Proof.
  split; [reflexivity|].
  destruct (failed_take_is_default (mkQueue ["A"] 2 State.Closed)
              "" Closed (mkQueue ["A"] 2 State.Closed)) as [Hpop _];
    [discriminate|].
  apply (Hpop Blocking). reflexivity.
Defined.

Lemma capacity_bound_witness :
  Forall (λ s : MessageQueue string, length (m_queue s) ≤ 2 ∧ m_queueSize s = 2)
    (states [OpPush NonBlocking "A"; OpPush Blocking "B"; OpPush NonBlocking "C";
             OpPop NonBlocking; OpPushWake "C"]
       (mkQueue [] 2 State.Running)).
Proof. apply capacity_bound. reflexivity. Defined.

Lemma fifo_order_witness :
  popped (run [OpPush NonBlocking "A"; OpPush NonBlocking "B";
               OpPop NonBlocking; OpPop Blocking]
            (mkQueue [] 2 State.Running)).2
  = pushed (run [OpPush NonBlocking "A"; OpPush NonBlocking "B";
                 OpPop NonBlocking; OpPop Blocking]
              (mkQueue [] 2 State.Running)).2.
Proof.
  apply (fifo_order [OpPush NonBlocking "A"; OpPush NonBlocking "B";
                     OpPop NonBlocking; OpPop Blocking]
           (mkQueue [] 2 State.Running)); reflexivity.
Defined.

(** Capacity 2: A and B are accepted, C is refused with [Full] and the
    buffer stays [A; B]; then A, B come out in that order and the next Pop
    finds the queue [Empty]. *)
Example fill_then_drain :
  Push NonBlocking "C" (mkQueue ["A"; "B"] 2 State.Running)
  = Returns Full (mkQueue ["A"; "B"] 2 State.Running) ∧
  run [OpPush NonBlocking "A"; OpPush NonBlocking "B"; OpPush NonBlocking "C";
       OpPop NonBlocking; OpPop NonBlocking; OpPop NonBlocking]
    (mkQueue [] 2 State.Running)
  = (mkQueue [] 2 State.Running,
     [Accepted "A"; Accepted "B"; Popped "A"; Popped "B"]) ∧
  Pop NonBlocking (mkQueue ([] : list string) 2 State.Running)
  = Returns ("", Empty) (mkQueue [] 2 State.Running).
Proof. split_and!; reflexivity. Qed.

(** Get takes B from behind A; the next Pop returns A. *)
Example get_then_pop :
  run [OpPush NonBlocking "A"; OpPush NonBlocking "B";
       OpGet (λ x, bool_decide (x = "B")); OpPop NonBlocking]
    (mkQueue [] 2 State.Running)
  = (mkQueue [] 2 State.Running,
     [Accepted "A"; Accepted "B"; Matched "B"; Popped "A"]).
Proof. reflexivity. Qed.

(** While a message is still buffered the pops lag behind the pushes:
    after two accepted Pushes and one Pop on a queue of capacity 2 the
    popped sequence is [A], the head of the accepted sequence [A; B]. *)
Example pops_lag_behind_pushes :
  popped (run [OpPush NonBlocking "A"; OpPush NonBlocking "B"; OpPop NonBlocking]
            (mkQueue [] 2 State.Running)).2 = ["A"] ∧
  pushed (run [OpPush NonBlocking "A"; OpPush NonBlocking "B"; OpPop NonBlocking]
            (mkQueue [] 2 State.Running)).2 = ["A"; "B"] ∧
  m_queue (run [OpPush NonBlocking "A"; OpPush NonBlocking "B"; OpPop NonBlocking]
             (mkQueue [] 2 State.Running)).1 = ["B"].
Proof. split_and!; reflexivity. Qed.

(** ** Thread layer *)

Section ThreadTheorems.
Context {Message : Type} `{!DefaultConstructible Message}.
Implicit Types (q : MessageQueue Message) (σ : Machine Message).

(** X16.  A thread that runs its call alone, line by line, does what the
    call layer says: it finishes with the same value in the same queue
    state, mutex released, or it ends up blocked on the same condition
    variable with the queue untouched and the mutex released.  It never
    reaches undefined behaviour. *)
Theorem solo_refines (c : Call) q :
  match call c q with
  | Returns v q' =>
      ∃ n, exec (replicate n (Run 0 0)) (solo c q)
           = Some (mkMachine q' None [Finished v])
  | Suspends cv q' =>
      ∃ n th, exec (replicate n (Run 0 0)) (solo c q)
              = Some (mkMachine q' None [th]) ∧
              waiting_on cv th = true ∧
              ∀ w, step (Run 0 w) (mkMachine q' None [th]) = None
  | Undefined _ => False
  end.
Proof.
  destruct c as [Policy m|Policy|predicate|]; simpl;
    unfold Push, Push_wait, Pop, Pop_wait, Pop_front, Get.
  - destruct (IsClosed q) eqn:Hc; simpl.
    { exists 1. simpl. by rewrite Hc. }
    destruct (length (m_queue q) =? m_queueSize q) eqn:He; simpl.
    + destruct Policy; simpl.
      * assert ((length (m_queue q) <? m_queueSize q) = false) as Hlt.
        { apply Nat.eqb_eq in He. rewrite He. apply Nat.ltb_irrefl. }
        rewrite Hlt; simpl.
        exists 5, (InPush Blocking m Push63_blocked). split_and!; [|done..].
        repeat progress (simpl; rewrite ?Hc, ?He, ?Hlt). done.
      * exists 3. repeat progress (simpl; rewrite ?Hc, ?He). done.
    + exists 6. repeat progress (simpl; rewrite ?Hc, ?He). done.
  - destruct (IsClosed q) eqn:Hc; simpl.
    { exists 1. simpl. by rewrite Hc. }
    destruct (m_queue q) as [|x l] eqn:Hq; simpl.
    + destruct Policy; simpl; rewrite ?Hq; simpl.
      * exists 5, (InPop Blocking Pop97_blocked). split_and!; [|done..].
        repeat progress (simpl; rewrite ?Hc, ?Hq). done.
      * exists 3. repeat progress (simpl; rewrite ?Hc, ?Hq). done.
    + rewrite ?Hq; simpl. exists 6. repeat progress (simpl; rewrite ?Hc, ?Hq). done.
  - destruct (IsClosed q) eqn:Hc; simpl.
    { exists 1. simpl. by rewrite Hc. }
    destruct (bool_decide (m_queue q = [])) eqn:Hq; simpl.
    { exists 3. repeat progress (simpl; rewrite ?Hc, ?Hq). done. }
    destruct (m_queue q !! find_if predicate (m_queue q)) as [x|] eqn:Hx; simpl.
    + exists 7. repeat progress (simpl; rewrite ?Hc, ?Hq, ?Hx). done.
    + exists 4. repeat progress (simpl; rewrite ?Hc, ?Hq, ?Hx). done.
  - exists 3. done.
Qed.

(** X17.  A Push or Pop that is already blocked on its condition variable
    when Close starts is unblocked by Close and returns [Closed], the
    buffer untouched. *)
Lemma blocked_thread_released_by_Close q :
  (∀ m, exec [Run 1 0; Run 1 0; Run 1 0; Run 0 0; Run 0 0; Run 0 0]
          (mkMachine q None [InPush Blocking m Push63_blocked; entry CallClose])
        = Some (mkMachine (Close q).2 None
                  [Finished (VResult Closed); Finished (VResult Ok)])) ∧
  exec [Run 1 0; Run 1 0; Run 1 0; Run 0 0; Run 0 0; Run 0 0]
    (mkMachine q None [InPop Blocking Pop97_blocked; entry CallClose])
  = Some (mkMachine (Close q).2 None
            [Finished (VPair (value_init, Closed)); Finished (VResult Ok)]).
Proof. done. Qed.

(** *** The invariant holds along every schedule *)

Lemma holds_lock_unblock (th : Thread Message) :
  holds_lock (unblock th) = holds_lock th.
Proof. by destruct th as [? ? []|? []|? []|[]|]. Qed.

Lemma local_ok_unblock q (th : Thread Message) :
  local_ok q (unblock th) = local_ok q th.
Proof. by destruct th as [? ? []|? []|? []|[]|]. Qed.

Lemma local_ok_unlocked q (th : Thread Message) :
  holds_lock th = false → local_ok q th.
Proof. by destruct th as [? ? []|? []|? []|[]|]. Qed.

Lemma local_ok_Close q (th : Thread Message) :
  local_ok q th → local_ok (Close q).2 th.
Proof. destruct th as [? ? []|? []|? []|[]|]; simpl; auto. Qed.

Lemma woken_refl (ths : list (Thread Message)) : woken ths ths.
Proof. intros t th Ht. eauto. Qed.

Lemma woken_notify_all cv (ths : list (Thread Message)) :
  woken ths (notify_all cv ths).
Proof.
  intros t th'. unfold notify_all. rewrite list_lookup_fmap.
  destruct (ths !! t) as [th|]; simpl; [|done].
  intros [= <-]. exists th. destruct (waiting_on cv th); auto.
Qed.

Lemma woken_notify_one cv w (ths ths' : list (Thread Message)) :
  notify_one cv w ths = Some ths' → woken ths ths'.
Proof.
  unfold notify_one. destruct (existsb _ _); [|intros [= <-]; apply woken_refl].
  destruct (ths !! w) as [thw|] eqn:Hw; [|done].
  destruct (waiting_on cv thw); [|done]. intros [= <-] t th'.
  rewrite list_lookup_insert_Some. intros [(<- & <- & _)|[_ Ht]]; eauto.
Qed.

(** Thread [t] moves from [th] to [th'], possibly changing the queue and
    the mutex and unblocking others; the invariant survives when the other
    threads are not disturbed. *)
Lemma inv_update σ t th th' q' mtx' ths' :
  Inv σ → threads σ !! t = Some th → woken (threads σ) ths' →
  length (m_queue q') ≤ m_queueSize q' →
  (∀ u thu, u ≠ t → threads σ !! u = Some thu →
     (holds_lock thu = true → mtx' = Some u) ∧ local_ok q' thu) →
  (holds_lock th' = true → mtx' = Some t) → local_ok q' th' →
  Inv (mkMachine q' mtx' (<[t:=th']> ths')).
Proof.
  intros HI Ht Hw Hcap Hframe Hown Hloc. constructor; simpl; [done|..];
    intros u thu; rewrite list_lookup_insert_Some;
    (intros [(<- & <- & _)|[Hne Hu]]; [done|]);
    destruct (Hw u thu Hu) as (th0 & Hu0 & [->| ->]);
    destruct (Hframe u th0 (not_eq_sym Hne) Hu0) as [Hm Hl];
    rewrite ?holds_lock_unblock, ?local_ok_unblock; done.
Qed.

(** The other threads when [t] neither touches the queue nor the mutex. *)
Lemma frame_same σ t :
  Inv σ → ∀ u thu, u ≠ t → threads σ !! u = Some thu →
  (holds_lock thu = true → m_mtx σ = Some u) ∧ local_ok (queue σ) thu.
Proof. intros [? Hm Hl] u thu _ Hu. split; [by apply (Hm u thu)|by apply (Hl u)]. Qed.

(** The other threads when [t] takes the free mutex. *)
Lemma frame_lock σ t :
  Inv σ → m_mtx σ = None → ∀ u thu, u ≠ t → threads σ !! u = Some thu →
  (holds_lock thu = true → Some t = Some u) ∧ local_ok (queue σ) thu.
Proof.
  intros [? Hm Hl] Hfree u thu _ Hu. split; [|by apply (Hl u)].
  intros Hh. specialize (Hm u thu Hu Hh). congruence.
Qed.

(** The other threads when [t], owner of the mutex, changes the queue or
    releases the mutex (or both). *)
Lemma frame_owner σ t q' mtx' :
  Inv σ → m_mtx σ = Some t → ∀ u thu, u ≠ t → threads σ !! u = Some thu →
  (holds_lock thu = true → mtx' = Some u) ∧ local_ok q' thu.
Proof.
  intros [? Hm Hl] Hmine u thu Hne Hu.
  destruct (holds_lock thu) eqn:Hh.
  - specialize (Hm u thu Hu Hh). congruence.
  - split; [done|by apply local_ok_unlocked].
Qed.

(** The other threads when [t] stores [State::Closed]. *)
Lemma frame_Close σ t :
  Inv σ → ∀ u thu, u ≠ t → threads σ !! u = Some thu →
  (holds_lock thu = true → m_mtx σ = Some u) ∧ local_ok (Close (queue σ)).2 thu.
Proof.
  intros [? Hm Hl] u thu _ Hu. split; [by apply (Hm u thu)|].
  by apply local_ok_Close, (Hl u).
Qed.

Lemma goto_inv σ t th th' σ' :
  Inv σ → threads σ !! t = Some th → goto σ t th' = Some σ' →
  (holds_lock th' = true → holds_lock th = true) → local_ok (queue σ) th' →
  Inv σ'.
Proof.
  intros HI Ht [= <-] Hh Hl.
  eapply inv_update; eauto using woken_refl, frame_same, inv_capacity.
  intros Hh'. by apply (inv_mutex σ HI t th), Hh.
Qed.

Lemma lock_inv σ t th th' σ' :
  Inv σ → threads σ !! t = Some th → lock σ t th' = Some σ' →
  local_ok (queue σ) th' → Inv σ'.
Proof.
  intros HI Ht. unfold lock. destruct (m_mtx σ) eqn:Hfree; [done|].
  intros [= <-] Hl.
  eapply inv_update; eauto using woken_refl, frame_lock, inv_capacity.
Qed.

Lemma unlock_inv σ t th th' σ' :
  Inv σ → threads σ !! t = Some th → holds_lock th = true →
  unlock σ t th' = Some σ' → holds_lock th' = false → Inv σ'.
Proof.
  intros HI Ht Hh [= <-] Hh'.
  pose proof (inv_mutex σ HI t th Ht Hh) as Hmine.
  eapply inv_update;
    eauto using woken_refl, frame_owner, inv_capacity, local_ok_unlocked.
  by rewrite Hh'.
Qed.

Lemma mutate_inv σ t th th' q' :
  Inv σ → threads σ !! t = Some th → holds_lock th = true →
  length (m_queue q') ≤ m_queueSize q' → local_ok q' th' →
  Inv (mkMachine q' (m_mtx σ) (<[t:=th']> (threads σ))).
Proof.
  intros HI Ht Hh Hcap Hl.
  pose proof (inv_mutex σ HI t th Ht Hh) as Hmine.
  eapply inv_update; eauto using woken_refl, frame_owner.
Qed.

Lemma notify_inv σ t th th' ths' :
  Inv σ → threads σ !! t = Some th → woken (threads σ) ths' →
  holds_lock th' = false →
  Inv (mkMachine (queue σ) (m_mtx σ) (<[t:=th']> ths')).
Proof.
  intros HI Ht Hw Hh'.
  eapply inv_update; eauto using frame_same, inv_capacity, local_ok_unlocked.
  by rewrite Hh'.
Qed.

(** Every step of the machine preserves the invariant. *)
Theorem step_preserves_Inv l σ σ' : Inv σ → step l σ = Some σ' → Inv σ'.
Proof.
  intros HI. destruct l as [t w|t]; cbn [step];
    destruct (threads σ !! t) as [th|] eqn:Ht; simpl; try done.
  - pose proof (inv_local σ HI t th Ht) as Hloc.
    pose proof (inv_capacity σ HI) as Hcap.
    destruct th as [Policy m pc|Policy pc|predicate pc|pc|v]; [..|done].
    + destruct pc; simpl in *; try done.
      * destruct (IsClosed (queue σ)); intros Hs; by eapply goto_inv.
      * intros Hs; by eapply lock_inv.
      * destruct (Nat.eqb_spec (length (m_queue (queue σ))) (m_queueSize (queue σ))).
        -- destruct Policy; intros Hs; [by eapply goto_inv|by eapply unlock_inv].
        -- intros Hs. eapply goto_inv; eauto. simpl. lia.
      * destruct (IsClosed (queue σ)) eqn:Hc; simpl.
        -- intros Hs. eapply goto_inv; eauto. simpl. auto.
        -- destruct (Nat.ltb_spec (length (m_queue (queue σ))) (m_queueSize (queue σ)));
             intros Hs; eapply goto_inv; eauto; simpl; auto.
      * intros Hs; by eapply unlock_inv.
      * intros Hs; by eapply lock_inv.
      * destruct (IsClosed (queue σ)) eqn:Hc; intros Hs; [by eapply unlock_inv|].
        eapply goto_inv; eauto. simpl. by destruct Hloc.
      * intros [= <-]. eapply mutate_inv; eauto; simpl; [|done].
        rewrite length_app. simpl. lia.
      * intros Hs; by eapply unlock_inv.
      * destruct (notify_one _ _ _) as [ths'|] eqn:Hn; simpl; [|done].
        intros [= <-]. eapply notify_inv; eauto using woken_notify_one.
    + destruct pc; simpl in *; try done.
      * destruct (IsClosed (queue σ)); intros Hs; by eapply goto_inv.
      * intros Hs; by eapply lock_inv.
      * destruct (m_queue (queue σ)) eqn:Hq; simpl.
        -- destruct Policy; intros Hs; [by eapply goto_inv|by eapply unlock_inv].
        -- intros Hs. eapply goto_inv; eauto. simpl. by rewrite Hq.
      * destruct (IsClosed (queue σ)) eqn:Hc; simpl.
        -- intros Hs. eapply goto_inv; eauto. simpl. auto.
        -- destruct (m_queue (queue σ)) eqn:Hq; simpl;
             intros Hs; eapply goto_inv; eauto; simpl; rewrite ?Hq; auto.
      * intros Hs; by eapply unlock_inv.
      * intros Hs; by eapply lock_inv.
      * destruct (IsClosed (queue σ)) eqn:Hc; intros Hs; [by eapply unlock_inv|].
        eapply goto_inv; eauto. simpl. by destruct Hloc.
      * destruct (m_queue (queue σ)) eqn:Hq; [done|].
        intros [= <-]. eapply mutate_inv; eauto; simpl; [|done].
        rewrite Hq. simpl in *. lia.
      * intros Hs; by eapply unlock_inv.
      * destruct (notify_one _ _ _) as [ths'|] eqn:Hn; simpl; [|done].
        intros [= <-]. eapply notify_inv; eauto using woken_notify_one.
    + destruct pc; simpl in *; try done.
      * destruct (IsClosed (queue σ)); intros Hs; by eapply goto_inv.
      * intros Hs; by eapply lock_inv.
      * destruct (bool_decide _); intros Hs; [by eapply unlock_inv|by eapply goto_inv].
      * destruct (m_queue (queue σ) !! _) eqn:Hx; intros Hs; [|by eapply unlock_inv].
        eapply goto_inv; eauto. simpl. by eapply lookup_lt_Some.
      * destruct (m_queue (queue σ) !! _) eqn:Hx; [|done].
        intros [= <-]. eapply mutate_inv; eauto; simpl; [|done].
        pose proof (length_delete _ _ (mk_is_Some _ _ Hx)). lia.
      * intros Hs; by eapply unlock_inv.
      * destruct (notify_one _ _ _) as [ths'|] eqn:Hn; simpl; [|done].
        intros [= <-]. eapply notify_inv; eauto using woken_notify_one.
    + destruct pc; simpl; intros [= <-].
      * apply (inv_update σ t (InClose Close142) (InClose Close143)
                 (Close (queue σ)).2 (m_mtx σ) (threads σ));
          eauto using woken_refl, frame_Close; done.
      * eapply notify_inv; eauto using woken_notify_all.
      * eapply notify_inv; eauto using woken_notify_all.
  - destruct (_ || _) eqn:Hw; [|done].
    intros Hs. eapply goto_inv; eauto.
    + rewrite holds_lock_unblock. done.
    + rewrite local_ok_unblock. by apply (inv_local σ HI t).
Qed.

(** Hence it holds after every schedule. *)
Theorem exec_preserves_Inv ls σ σ' : Inv σ → exec ls σ = Some σ' → Inv σ'.
Proof.
  revert σ. induction ls as [|l ls IH]; simpl; intros σ HI.
  - by intros [= <-].
  - destruct (step l σ) as [σ1|] eqn:Hs; simpl; [|done].
    apply IH. by eapply step_preserves_Inv.
Qed.

(** It holds when the threads are started on a freshly constructed queue. *)
Lemma boot_Inv (c : nat) q (cs : list Call) :
  MessageQueue_ctor c = inr q → Inv (boot q cs).
Proof.
  unfold MessageQueue_ctor. destruct (c =? 0); intros [= <-].
  constructor; simpl; [lia|..]; intros t th; rewrite list_lookup_fmap;
    destruct (cs !! t) as [[]|]; simpl; intros [= <-]; done.
Qed.

(** X13.  With any number of threads started on a freshly constructed
    queue of capacity [c], after every schedule the buffer holds at most
    [c] messages, and the next [front()] or [*msgIt] is defined. *)
Theorem machine_capacity_bound (c : nat) q (cs : list Call) ls σ :
  MessageQueue_ctor c = inr q → exec ls (boot q cs) = Some σ →
  length (m_queue (queue σ)) ≤ m_queueSize (queue σ) ∧
  (∀ t w Policy, threads σ !! t = Some (InPop Policy Pop104) →
     is_Some (step (Run t w) σ)) ∧
  (∀ t w predicate msgIt, threads σ !! t = Some (InGet predicate (Get130 msgIt)) →
     is_Some (step (Run t w) σ)).
Proof.
  intros Hq Hex.
  pose proof (exec_preserves_Inv _ _ _ (boot_Inv c q cs Hq) Hex) as HI.
  split_and!; [by apply inv_capacity|..].
  - intros t w Policy Ht. simpl. rewrite Ht. simpl.
    pose proof (inv_local σ HI t _ Ht) as Hne. simpl in Hne.
    destruct (m_queue (queue σ)); [done|eauto].
  - intros t w predicate msgIt Ht. simpl. rewrite Ht. simpl.
    pose proof (inv_local σ HI t _ Ht) as Hlt. simpl in Hlt.
    destruct (lookup_lt_is_Some_2 _ _ Hlt) as [x ->]. eauto.
Qed.

(** A step never changes the capacity and never reopens the queue. *)
Lemma step_capacity_state l σ σ' :
  step l σ = Some σ' →
  m_queueSize (queue σ') = m_queueSize (queue σ) ∧
  (IsClosed (queue σ) = true → IsClosed (queue σ') = true).
Proof.
  intros Hs. destruct l as [t w|t]; simpl in Hs;
    (destruct (threads σ !! t) as [th|]; simpl in Hs; [|done]).
  - destruct th as [Policy m pc|Policy pc|predicate pc|pc|v]; [..|done];
      destruct pc; simpl in Hs; unfold goto, lock, unlock in Hs;
      repeat case_match; simplify_option_eq; (split; [done|]);
      unfold IsClosed; simpl; done.
  - unfold goto in Hs. case_match; simplify_eq/=; done.
Qed.

(** X25.  The fast path of a closed queue.  In any state of the machine,
    whoever holds the mutex, a call entered on a closed queue returns
    [Closed] in its first step (with [Message{}] for Pop and Get): it does
    not take the mutex, notifies nobody and changes nothing else. *)
Lemma entry_on_closed σ t w :
  IsClosed (queue σ) = true →
  (∀ Policy m, threads σ !! t = Some (entry (CallPush Policy m)) →
     step (Run t w) σ
     = Some (mkMachine (queue σ) (m_mtx σ)
               (<[t:=Finished (VResult Closed)]> (threads σ)))) ∧
  (∀ Policy, threads σ !! t = Some (entry (CallPop Policy)) →
     step (Run t w) σ
     = Some (mkMachine (queue σ) (m_mtx σ)
               (<[t:=Finished (VPair (value_init, Closed))]> (threads σ)))) ∧
  (∀ predicate, threads σ !! t = Some (entry (CallGet predicate)) →
     step (Run t w) σ
     = Some (mkMachine (queue σ) (m_mtx σ)
               (<[t:=Finished (VPair (value_init, Closed))]> (threads σ)))).
Proof.
  intros Hc. split_and!; intros; simpl in *; simplify_option_eq; by rewrite Hc.
Qed.

(** The thread layer returns [Message{}] with every failure, also on the
    paths that passed through a wait. *)
Lemma step_returned_ok l σ σ' :
  step l σ = Some σ' →
  (∀ t th, threads σ !! t = Some th → returned_ok th) →
  ∀ t th, threads σ' !! t = Some th → returned_ok th.
Proof.
  intros Hs Hall.
  assert (∃ t th' ths', woken (threads σ) ths' ∧
            threads σ' = <[t:=th']> ths' ∧ returned_ok th') as
    (t & th' & ths' & Hw & -> & Hth').
  { destruct l as [t w|t]; simpl in Hs;
      (destruct (threads σ !! t) as [th|] eqn:Ht; simpl in Hs; [|done]).
    - destruct th as [Policy m pc|Policy pc|predicate pc|pc|v]; [..|done];
        destruct pc; simpl in Hs; unfold goto, lock, unlock in Hs;
        repeat case_match; simplify_option_eq;
        eexists t, _, _; (split_and!; [|done|]);
        eauto using woken_refl, woken_notify_one, woken_notify_all;
        simpl; first [done|congruence].
    - unfold goto in Hs. case_match; simplify_eq.
      eexists t, _, _; split_and!; [apply woken_refl|done|].
      by destruct th as [? ? []|? []|? []|[]|]. }
  intros u thu. rewrite list_lookup_insert_Some.
  intros [(<- & <- & _)|[_ Hu]]; [done|].
  destruct (Hw u thu Hu) as (th0 & Hu0 & [->| ->]); [by eapply Hall|].
  specialize (Hall u th0 Hu0). by destruct th0 as [? ? []|? []|? []|[]|].
Qed.

(** A woken thread that re-enters its wait alone does what [Push_wait]
    and [Pop_wait] say. *)
Lemma wake_refines q :
  (∀ m, match Push_wait m q with
        | Returns r q' =>
            ∃ n, exec (replicate n (Run 0 0))
                   (mkMachine q None [InPush Blocking m Push63_relock])
                 = Some (mkMachine q' None [Finished (VResult r)])
        | Suspends _ q' =>
            exec (replicate 3 (Run 0 0))
              (mkMachine q None [InPush Blocking m Push63_relock])
            = Some (mkMachine q' None [InPush Blocking m Push63_blocked])
        | Undefined _ => False
        end) ∧
  match Pop_wait q with
  | Returns mr q' =>
      ∃ n, exec (replicate n (Run 0 0))
             (mkMachine q None [InPop Blocking Pop97_relock])
           = Some (mkMachine q' None [Finished (VPair mr)])
  | Suspends _ q' =>
      exec (replicate 3 (Run 0 0))
        (mkMachine q None [InPop Blocking Pop97_relock])
      = Some (mkMachine q' None [InPop Blocking Pop97_blocked])
  | Undefined _ => False
  end.
Proof.
  unfold Push_wait, Pop_wait, Pop_front. split; [intros m|].
  - destruct (IsClosed q) eqn:Hc; simpl.
    { exists 3. repeat progress (simpl; rewrite ?Hc). done. }
    destruct (length (m_queue q) <? m_queueSize q) eqn:Hlt.
    + exists 6. repeat progress (simpl; rewrite ?Hc, ?Hlt). done.
    + repeat progress (simpl; rewrite ?Hc, ?Hlt). done.
  - destruct (IsClosed q) eqn:Hc; simpl.
    { exists 3. repeat progress (simpl; rewrite ?Hc). done. }
    destruct (m_queue q) as [|x l] eqn:Hq; simpl.
    + repeat progress (simpl; rewrite ?Hc, ?Hq). done.
    + exists 6. repeat progress (simpl; rewrite ?Hc, ?Hq). done.
Qed.

(** What a step does to the buffer and to the history. *)
Lemma step_buffer l σ σ' :
  step l σ = Some σ' →
  buffer_effect (m_queue (queue σ)) (m_queue (queue σ')) (observe l σ).
Proof.
  intros Hs. unfold buffer_effect.
  destruct l as [t w|t]; simpl in *;
    (destruct (threads σ !! t) as [th|]; simpl in Hs; [|done]).
  - destruct th as [Policy m pc|Policy pc|predicate pc|pc|v]; [..|done];
      destruct pc; simpl in Hs; unfold goto, lock, unlock in Hs;
      repeat case_match; simplify_option_eq; eauto 10.
    match goal with Hq : m_queue (queue σ) = _ |- _ => rewrite Hq end.
    simpl. eauto 10.
  - unfold goto in Hs. case_match; simplify_eq/=; auto.
Qed.

(** X14.  FIFO order along every schedule, for any number of threads:
    the messages popped so far, followed by the buffer, are the initial
    buffer followed by the messages appended so far, in that order, with
    the matched ones left out. *)
Theorem machine_fifo_order ls σ σ' :
  exec ls σ = Some σ' →
  in_order (m_queue (queue σ)) (trace ls σ) (m_queue (queue σ')) ∧
  (matched (trace ls σ) = [] →
   popped (trace ls σ) ++ m_queue (queue σ')
   = m_queue (queue σ) ++ pushed (trace ls σ)).
Proof.
  intros Hex. assert (in_order (m_queue (queue σ)) (trace ls σ) (m_queue (queue σ'))) as Hord.
  { revert σ Hex. induction ls as [|l ls IH]; simpl; intros σ.
    - intros [= <-]. apply in_order_nil.
    - destruct (step l σ) as [σ1|] eqn:Hs; simpl; [|done]. intros Hex.
      eapply in_order_cons; [by apply step_buffer|by apply IH]. }
  split; [done|]. by apply in_order_full.
Qed.

End ThreadTheorems.

(** The hand-off runs to completion: both Pushes return [Ok], the Pop
    returns X, the buffer ends as [Y]. *)
Example handoff_runs :
  exec handoff_schedule handoff
  = Some (mkMachine (mkQueue ["Y"] 1 State.Running) None
            [Finished (VResult Ok); Finished (VResult Ok);
             Finished (VPair ("X", Ok))]) ∧
  trace handoff_schedule handoff = [Accepted "X"; Popped "X"; Accepted "Y"].
Proof. split; reflexivity. Qed.

(** The machine theorems at the hand-off. *)
Example handoff_within_capacity :
  length (m_queue (mkQueue ["Y"] 1 State.Running)) ≤ 1.
Proof.
  refine (proj1 (machine_capacity_bound 1 (mkQueue [] 1 State.Running)
                   [CallPush NonBlocking "X"; CallPush Blocking "Y";
                    CallPop NonBlocking]
                   handoff_schedule _ eq_refl (proj1 handoff_runs))).
Defined.

Example handoff_in_order :
  popped (trace handoff_schedule handoff) ++ ["Y"]
  = pushed (trace handoff_schedule handoff).
Proof.
  refine (proj2 (machine_fifo_order handoff_schedule handoff _
                   (proj1 handoff_runs)) eq_refl).
Defined.

(** C7.  The code does not release every blocked thread.  Close stores
    [m_state] and notifies without holding [m_mtx], so it can run between
    the evaluation of a wait predicate and the blocking of that thread:
    in the schedule [close_in_the_window] Close has returned [Ok], the
    queue is closed, thread 0 is blocked on its condition variable, and no
    thread can run any more; only a spurious wake-up could release it. *)
Theorem blocked_forever_after_Close :
  (exec close_in_the_window push_vs_close
   = Some (mkMachine (mkQueue ["X"] 1 State.Closed) None
             [InPush Blocking "Y" Push63_blocked; Finished (VResult Ok)]) ∧
   ∀ t w, step (Run t w)
            (mkMachine (mkQueue ["X"] 1 State.Closed) None
               [InPush Blocking "Y" Push63_blocked; Finished (VResult Ok)])
          = None) ∧
  (exec close_in_the_window pop_vs_close
   = Some (mkMachine (mkQueue [] 2 State.Closed) None
             [InPop Blocking Pop97_blocked; Finished (VResult Ok)]) ∧
   ∀ t w, step (Run t w)
            (mkMachine (mkQueue [] 2 State.Closed) None
               [InPop Blocking Pop97_blocked; Finished (VResult Ok)])
          = None).
Proof.
  split; (split; [reflexivity|]); intros [|[|t]] w; reflexivity.
Qed.


(** ** More about the call layer *)

Section CallContracts.
Context {Message : Type} `{!DefaultConstructible Message}.
Implicit Types (q : MessageQueue Message) (m : Message).

(** When [find_if] returns the end iterator no element satisfies the
    predicate. *)
Lemma find_if_end predicate (l : list Message) :
  l !! find_if predicate l = None → Forall (λ y, predicate y = false) l.
Proof.
  induction l as [|y l IH]; simpl; [done|].
  destruct (predicate y) eqn:Hy; simpl; [done|]. auto.
Qed.

(** X1.  Blocking Push on a running queue: when the buffer holds exactly
    [m_queueSize] messages the call parks on [m_pushCv] and the queue is
    untouched; at any other length the message is appended at the tail and
    the result is [Ok], exactly as for NonBlocking. *)
Theorem Push_Blocking_spec m q :
  IsClosed q = false →
  (length (m_queue q) = m_queueSize q → Push Blocking m q = Suspends m_pushCv q) ∧
  (length (m_queue q) ≠ m_queueSize q →
   ∀ Policy, Push Policy m q
             = Returns Ok (mkQueue (m_queue q ++ [m]) (m_queueSize q) (m_state q))).
Proof.
  intros Ho. unfold Push, Push_wait. rewrite Ho. simpl. split.
  - intros ->. by rewrite Nat.eqb_refl, Nat.ltb_irrefl.
  - intros Hne Policy. by rewrite (proj2 (Nat.eqb_neq _ _) Hne).
Qed.

(** X2.  Blocking Pop on a running queue: on an empty buffer the call
    parks on [m_popCv] and the queue is untouched; otherwise the head is
    removed and returned with [Ok], whatever the policy. *)
Theorem Pop_Blocking_spec q :
  IsClosed q = false →
  (m_queue q = [] → Pop Blocking q = Suspends m_popCv q) ∧
  (∀ x l, m_queue q = x :: l →
   ∀ Policy, Pop Policy q = Returns (x, Ok) (mkQueue l (m_queueSize q) (m_state q))).
Proof.
  intros Ho. unfold Pop, Pop_wait, Pop_front, erase. rewrite Ho. simpl. split.
  - by intros ->.
  - intros x l -> Policy. done.
Qed.

(** X3.  Which results each operation can produce.  Push returns [Ok],
    [Full] or [Closed], and [Full] only under NonBlocking; Pop returns
    [Ok], [Empty] or [Closed], and [Empty] only under NonBlocking; Get
    returns [Ok], [Empty], [NotFound] or [Closed].  Get and the
    NonBlocking calls always return; only a Blocking call can park, Push
    on [m_pushCv] and Pop on [m_popCv]; [front()] is never called on an
    empty buffer. *)
Theorem results_by_operation q :
  (∀ Policy m r q', Push Policy m q = Returns r q' →
     (r = Ok ∨ r = Full ∨ r = Closed) ∧ (r = Full → Policy = NonBlocking)) ∧
  (∀ Policy x r q', Pop Policy q = Returns (x, r) q' →
     (r = Ok ∨ r = Empty ∨ r = Closed) ∧ (r = Empty → Policy = NonBlocking)) ∧
  (∀ predicate x r q', Get predicate q = Returns (x, r) q' →
     r = Ok ∨ r = Empty ∨ r = NotFound ∨ r = Closed) ∧
  (∀ m, ∃ r q', Push NonBlocking m q = Returns r q') ∧
  (∃ xr q', Pop NonBlocking q = Returns xr q') ∧
  (∀ predicate, ∃ xr q', Get predicate q = Returns xr q') ∧
  (∀ Policy m cv q', Push Policy m q = Suspends cv q' →
     Policy = Blocking ∧ cv = m_pushCv) ∧
  (∀ Policy cv q', Pop Policy q = Suspends cv q' →
     Policy = Blocking ∧ cv = m_popCv) ∧
  (∀ Policy m q', Push Policy m q ≠ Undefined q') ∧
  (∀ Policy q', Pop Policy q ≠ Undefined q') ∧
  (∀ predicate q', Get predicate q ≠ Undefined q').
Proof.
  unfold Push, Push_wait, Pop, Pop_wait, Pop_front, Get.
  destruct (IsClosed q); simpl.
  { split_and!; intros; simplify_eq; naive_solver. }
  destruct (length (m_queue q) =? m_queueSize q); simpl;
    destruct (length (m_queue q) <? m_queueSize q); simpl;
    destruct (m_queue q) as [|y l] eqn:Hq; simpl;
    (split_and!;
       try (intros []); intros;
       repeat case_match; simplify_eq; naive_solver).
Qed.

(** X4.  A call that does not return [Ok] changes nothing: after a
    [Full], [Empty], [NotFound] or [Closed] result, and when a Blocking
    call parks, the queue is exactly as before.  No Push, Pop or Get ever
    changes the capacity or the state flag. *)
Theorem failure_changes_nothing q :
  (∀ Policy m r q', Push Policy m q = Returns r q' → r ≠ Ok → q' = q) ∧
  (∀ Policy x r q', Pop Policy q = Returns (x, r) q' → r ≠ Ok → q' = q) ∧
  (∀ predicate x r q', Get predicate q = Returns (x, r) q' → r ≠ Ok → q' = q) ∧
  (∀ Policy m cv q', Push Policy m q = Suspends cv q' → q' = q) ∧
  (∀ Policy cv q', Pop Policy q = Suspends cv q' → q' = q) ∧
  (∀ Policy m, m_queueSize (state_after (Push Policy m q)) = m_queueSize q ∧
               m_state (state_after (Push Policy m q)) = m_state q) ∧
  (∀ Policy, m_queueSize (state_after (Pop Policy q)) = m_queueSize q ∧
             m_state (state_after (Pop Policy q)) = m_state q) ∧
  (∀ predicate, m_queueSize (state_after (Get predicate q)) = m_queueSize q ∧
                m_state (state_after (Get predicate q)) = m_state q).
Proof.
  unfold Push, Push_wait, Pop, Pop_wait, Pop_front, Get.
  destruct (IsClosed q); simpl.
  { split_and!; intros; simplify_eq; naive_solver. }
  destruct (length (m_queue q) =? m_queueSize q); simpl;
    destruct (length (m_queue q) <? m_queueSize q); simpl;
    destruct (m_queue q) as [|y l] eqn:Hq; simpl;
    (split_and!;
       try (intros []); intros;
       repeat case_match; simplify_eq; naive_solver).
Qed.

(** X5.  A failure names its cause.  [Closed] is returned only by a
    closed queue; [Full] only by a running queue whose buffer holds
    [m_queueSize] messages; [Empty] only by a running queue with an empty
    buffer; [NotFound] only by a running queue whose buffer is not empty
    and holds no element satisfying the predicate. *)
Theorem failure_names_its_cause q :
  (∀ Policy m r q', Push Policy m q = Returns r q' →
     (r = Closed → IsClosed q = true) ∧
     (r = Full → IsClosed q = false ∧ length (m_queue q) = m_queueSize q)) ∧
  (∀ Policy x r q', Pop Policy q = Returns (x, r) q' →
     (r = Closed → IsClosed q = true) ∧
     (r = Empty → IsClosed q = false ∧ m_queue q = [])) ∧
  (∀ predicate x r q', Get predicate q = Returns (x, r) q' →
     (r = Closed → IsClosed q = true) ∧
     (r = Empty → IsClosed q = false ∧ m_queue q = []) ∧
     (r = NotFound → IsClosed q = false ∧ m_queue q ≠ [] ∧
                     Forall (λ y, predicate y = false) (m_queue q))).
Proof.
  unfold Push, Push_wait, Pop, Pop_wait, Pop_front, Get.
  destruct (IsClosed q); simpl.
  { split_and!; intros; simplify_eq; split_and!; intros; simplify_eq; done. }
  split_and!.
  - intros Policy m r q'.
    destruct (Nat.eqb_spec (length (m_queue q)) (m_queueSize q)); simpl;
      destruct Policy; simpl;
      destruct (length (m_queue q) <? m_queueSize q); simpl;
      intros; simplify_eq; split; intros; simplify_eq; done.
  - intros Policy x r q'. destruct (m_queue q); simpl; destruct Policy; simpl;
      intros; simplify_eq; split; intros; simplify_eq; done.
  - intros predicate x r q'. destruct (m_queue q) as [|y l] eqn:Hq; simpl.
    { intros; simplify_eq; split_and!; intros; simplify_eq; done. }
    destruct ((y :: l) !! _) eqn:Hy; intros; simplify_eq;
      split_and!; intros; simplify_eq.
    split_and!; [done..|]. by apply (find_if_end predicate).
Qed.

End CallContracts.

Section CallCompositions.
Context {Message : Type} `{!DefaultConstructible Message}.
Implicit Types (q : MessageQueue Message) (m : Message).

Lemma run_app (ops1 ops2 : list Op) q :
  run (ops1 ++ ops2) q =
  ((run ops2 (run ops1 q).1).1, (run ops1 q).2 ++ (run ops2 (run ops1 q).1).2).
Proof.
  revert q. induction ops1 as [|o ops1 IH]; intros q.
  - simpl. by destruct (run ops2 q).
  - rewrite <-app_comm_cons, !run_cons, IH. simpl. by rewrite (assoc_L (++)).
Qed.

Lemma is_closed_eta q :
  IsClosed q = true → mkQueue (m_queue q) (m_queueSize q) State.Closed = q.
Proof. destruct q as [b c []]; [done|]. done. Qed.

(** X6.  Get with a predicate that the head of the buffer satisfies is a
    NonBlocking Pop: same result, same queue afterwards, in every state
    (closed, empty or not).  In particular Get with the always-true
    predicate is NonBlocking Pop. *)
Theorem Get_of_head_is_Pop predicate q :
  (∀ x, head (m_queue q) = Some x → predicate x = true) →
  Get predicate q = Pop NonBlocking q.
Proof.
  intros Hhead. unfold Get, Pop, Pop_front. destruct (IsClosed q); [done|].
  destruct (m_queue q) as [|x l] eqn:Hq; simpl; [done|].
  by rewrite (Hhead x eq_refl).
Qed.

(** Push with room appends; Pop of a non-empty buffer takes the head. *)
Lemma Push_with_room Policy m q :
  IsClosed q = false → length (m_queue q) ≠ m_queueSize q →
  Push Policy m q = Returns Ok (emplace_back m q).
Proof.
  intros Ho Hne. unfold Push. by rewrite Ho, (proj2 (Nat.eqb_neq _ _) Hne).
Qed.

Lemma Pop_of_head Policy q x l :
  IsClosed q = false → m_queue q = x :: l →
  Pop Policy q = Returns (x, Ok) (mkQueue l (m_queueSize q) (m_state q)).
Proof.
  intros Ho Hq. unfold Pop, Pop_front, erase. by rewrite Ho, Hq.
Qed.

Lemma run_Push_burst (ms : list Message) q :
  IsClosed q = false → length (m_queue q) ≤ m_queueSize q →
  run (OpPush NonBlocking <$> ms) q
  = (mkQueue (m_queue q ++ take (m_queueSize q - length (m_queue q)) ms)
       (m_queueSize q) (m_state q),
     Accepted <$> take (m_queueSize q - length (m_queue q)) ms).
Proof.
  revert q. induction ms as [|m ms IH]; intros q Ho Hle.
  - simpl. rewrite take_nil, app_nil_r. by destruct q.
  - rewrite fmap_cons, run_cons. cbn [apply_op]. unfold Push. rewrite Ho.
    destruct (Nat.eqb_spec (length (m_queue q)) (m_queueSize q)) as [He|Hne]; simpl.
    + rewrite IH by done. rewrite He, Nat.sub_diag. done.
    + rewrite IH; [|done|simpl; rewrite length_app; simpl; lia].
      simpl. rewrite length_app. simpl.
      replace (m_queueSize q - length (m_queue q))
        with (S (m_queueSize q - (length (m_queue q) + 1))) by lia.
      simpl. by rewrite <-(assoc_L (++)).
Qed.

Lemma run_Pop_drain Policy q :
  IsClosed q = false →
  run (replicate (length (m_queue q)) (OpPop Policy)) q
  = (mkQueue [] (m_queueSize q) (m_state q), Popped <$> m_queue q).
Proof.
  destruct q as [b c st]. simpl. intros Ho.
  induction b as [|x b IH]; [done|].
  cbn [length replicate]. rewrite run_cons. cbn [apply_op].
  rewrite (Pop_of_head Policy (mkQueue (x :: b) c st) x b Ho eq_refl).
  simpl. by rewrite IH.
Qed.

(** X7.  Pop after an accepted Push.  On a running queue with room, after
    Push of [m] (either policy) a Pop (either policy) returns [m] itself if
    the buffer was empty, and the queue is back in its state before the
    Push; otherwise it returns the old head and [m] is now the last
    element. *)
Theorem Push_then_Pop Policy Policy' m q :
  IsClosed q = false → length (m_queue q) ≠ m_queueSize q →
  (m_queue q = [] →
   Pop Policy' (state_after (Push Policy m q)) = Returns (m, Ok) q) ∧
  (∀ x l, m_queue q = x :: l →
   Pop Policy' (state_after (Push Policy m q))
   = Returns (x, Ok) (mkQueue (l ++ [m]) (m_queueSize q) (m_state q))).
Proof.
  intros Ho Hne. rewrite (Push_with_room Policy m q Ho Hne). simpl. split.
  - intros Hq.
    rewrite (Pop_of_head Policy' (emplace_back m q) m []); simpl; [|done|by rewrite Hq].
    destruct q; simpl in *; by subst.
  - intros x l Hq.
    by rewrite (Pop_of_head Policy' (emplace_back m q) x (l ++ [m]));
      simpl; [|done|by rewrite Hq].
Qed.

(** X8.  A burst of NonBlocking Pushes on a running queue: the messages
    are accepted in order until the buffer holds [m_queueSize] messages and
    every later one is refused; the buffer ends as the old buffer followed
    by the accepted prefix of the burst. *)
Theorem Push_burst (ms : list Message) q :
  IsClosed q = false → length (m_queue q) ≤ m_queueSize q →
  run (OpPush NonBlocking <$> ms) q
  = (mkQueue (m_queue q ++ take (m_queueSize q - length (m_queue q)) ms)
       (m_queueSize q) (m_state q),
     Accepted <$> take (m_queueSize q - length (m_queue q)) ms).
Proof. apply run_Push_burst. Qed.

(** X9.  Draining: on a running queue, as many Pops as the buffer holds
    messages (either policy) return exactly the buffer, head first, and
    leave it empty; none of them parks. *)
Theorem Pop_drain Policy q :
  IsClosed q = false →
  run (replicate (length (m_queue q)) (OpPop Policy)) q
  = (mkQueue [] (m_queueSize q) (m_state q), Popped <$> m_queue q).
Proof. apply run_Pop_drain. Qed.

(** X10.  What goes in comes out: on a freshly constructed queue of
    capacity [c], a burst of at most [c] NonBlocking Pushes followed by as
    many Pops is accepted whole, comes out in the order it went in, and
    leaves the queue as constructed. *)
Theorem burst_roundtrip (c : nat) q (ms : list Message) Policy :
  MessageQueue_ctor c = inr q → length ms ≤ c →
  run ((OpPush NonBlocking <$> ms) ++ replicate (length ms) (OpPop Policy)) q
  = (q, (Accepted <$> ms) ++ (Popped <$> ms)).
Proof.
  unfold MessageQueue_ctor. destruct (c =? 0); intros [= <-] Hlen.
  rewrite run_app, run_Push_burst by (simpl; done || lia). simpl.
  rewrite Nat.sub_0_r, take_ge by done.
  pose proof (run_Pop_drain Policy (mkQueue ms c State.Running) eq_refl) as Hd.
  simpl in Hd. by rewrite Hd.
Qed.

(** X11.  A closed queue is frozen: whatever calls follow (Push, Pop, Get,
    Close, wake-ups of parked calls), the queue stays exactly as it is and
    the history gains no event; the messages buffered at the time of Close
    are never delivered. *)
Theorem closed_queue_is_frozen (ops : list Op) q :
  IsClosed q = true → run ops q = (q, []).
Proof.
  intros Hc. induction ops as [|o ops IH]; [done|].
  rewrite run_cons.
  assert (apply_op o q = (q, [])) as ->; [|simpl; by rewrite IH].
  destruct o; simpl; unfold Push, Push_wait, Pop, Pop_wait, Get; rewrite ?Hc;
    simpl; try done.
  by rewrite is_closed_eta.
Qed.

End CallCompositions.

Lemma Push_Blocking_spec_witness :
  Push Blocking "Y" (mkQueue ["X"] 1 State.Running)
  = Suspends m_pushCv (mkQueue ["X"] 1 State.Running).
Proof.
  apply (Push_Blocking_spec "Y" (mkQueue ["X"] 1 State.Running)); reflexivity.
Defined.

Lemma Pop_Blocking_spec_witness :
  Pop Blocking (mkQueue ["X"; "Y"] 2 State.Running)
  = Returns ("X", Ok) (mkQueue ["Y"] 2 State.Running).
Proof.
  destruct (Pop_Blocking_spec (mkQueue ["X"; "Y"] 2 State.Running) eq_refl)
    as [_ Hpop].
  apply (Hpop "X" ["Y"] eq_refl Blocking).
Defined.

Lemma results_by_operation_witness :
  NonBlocking = NonBlocking.
Proof.
  destruct (results_by_operation (mkQueue ["X"] 1 State.Running)) as [Hpush _].
  destruct (Hpush NonBlocking "Y" Full (mkQueue ["X"] 1 State.Running) eq_refl)
    as [_ Hfull].
  apply (Hfull eq_refl).
Defined.

Lemma failure_changes_nothing_witness :
  mkQueue ["X"] 1 State.Running = mkQueue ["X"] 1 State.Running.
Proof.
  destruct (failure_changes_nothing (mkQueue ["X"] 1 State.Running)) as [Hpush _].
  apply (Hpush NonBlocking "Y" Full (mkQueue ["X"] 1 State.Running) eq_refl).
  discriminate.
Defined.

Lemma failure_names_its_cause_witness :
  Forall (λ y, bool_decide (y = "Z") = false) ["X"; "Y"].
Proof.
  destruct (failure_names_its_cause (mkQueue ["X"; "Y"] 2 State.Running))
    as (_ & _ & Hget).
  destruct (Hget (λ y, bool_decide (y = "Z")) "" NotFound
              (mkQueue ["X"; "Y"] 2 State.Running))
    as (_ & _ & Hnf); [reflexivity|].
  apply (Hnf eq_refl).
Defined.

Lemma Get_Ok_inv_witness :
  bool_decide ("B" = "B") = true.
Proof.
  apply (Get_Ok_inv (λ x, bool_decide (x = "B"))
           (mkQueue ["A"; "B"; "C"] 3 State.Running) "B"
           (mkQueue ["A"; "C"] 3 State.Running)).
  reflexivity.
Defined.

Lemma Get_of_head_is_Pop_witness :
  Get (λ x, bool_decide (x = "A")) (mkQueue ["A"; "B"] 2 State.Running)
  = Pop NonBlocking (mkQueue ["A"; "B"] 2 State.Running).
Proof.
  apply Get_of_head_is_Pop. intros x [= <-]. reflexivity.
Defined.

Lemma Push_then_Pop_witness :
  Pop Blocking (state_after (Push NonBlocking "A" (mkQueue [] 1 State.Running)))
  = Returns ("A", Ok) (mkQueue [] 1 State.Running).
Proof.
  apply (Push_then_Pop NonBlocking Blocking "A" (mkQueue [] 1 State.Running));
    [reflexivity|discriminate|reflexivity].
Defined.

Lemma Push_burst_witness :
  run (OpPush NonBlocking <$> ["B"; "C"; "D"]) (mkQueue ["A"] 3 State.Running)
  = (mkQueue ["A"; "B"; "C"] 3 State.Running, [Accepted "B"; Accepted "C"]).
Proof.
  apply (Push_burst ["B"; "C"; "D"] (mkQueue ["A"] 3 State.Running));
    [reflexivity|simpl; lia].
Defined.

Lemma Pop_drain_witness :
  run (replicate 2 (OpPop Blocking)) (mkQueue ["A"; "B"] 3 State.Running)
  = (mkQueue [] 3 State.Running, [Popped "A"; Popped "B"]).
Proof.
  apply (Pop_drain Blocking (mkQueue ["A"; "B"] 3 State.Running)). reflexivity.
Defined.

Lemma burst_roundtrip_witness :
  run ((OpPush NonBlocking <$> ["A"; "B"]) ++ replicate 2 (OpPop NonBlocking))
    (mkQueue [] 2 State.Running)
  = (mkQueue [] 2 State.Running,
     [Accepted "A"; Accepted "B"; Popped "A"; Popped "B"]).
Proof.
  apply (burst_roundtrip 2 (mkQueue [] 2 State.Running) ["A"; "B"] NonBlocking);
    [reflexivity|simpl; lia].
Defined.

Lemma closed_queue_is_frozen_witness :
  run [OpPop NonBlocking; OpGet (λ _, true); OpPush Blocking "B"; OpClose; OpPopWake]
    (mkQueue ["A"] 2 State.Closed)
  = (mkQueue ["A"] 2 State.Closed, []).
Proof.
  apply (closed_queue_is_frozen _ (mkQueue ["A"] 2 State.Closed)). reflexivity.
Defined.

(** ** More about the thread layer *)

Section ThreadDiscipline.
Context {Message : Type} `{!DefaultConstructible Message}.
Implicit Types (q : MessageQueue Message) (σ : Machine Message).

(** What a step does to the threads and to the mutex: thread [t] moves,
    the others stay where they are or are unblocked, and the mutex is
    either left alone (and [t] stays inside or outside the scope of its
    lock), taken by [t], or released. *)
Lemma step_shape l σ σ' :
  step l σ = Some σ' →
  ∃ t th th' ths',
    threads σ !! t = Some th ∧
    (∀ u thu, threads σ !! u = Some thu →
       ∃ thu', ths' !! u = Some thu' ∧ holds_lock thu' = holds_lock thu) ∧
    threads σ' = <[t:=th']> ths' ∧
    ((m_mtx σ' = m_mtx σ ∧ holds_lock th' = holds_lock th) ∨
     (m_mtx σ' = Some t ∧ holds_lock th' = true) ∨
     m_mtx σ' = None).
Proof.
  assert (∀ ths : list (Thread Message), ∀ u thu, ths !! u = Some thu →
            ∃ thu', ths !! u = Some thu' ∧ holds_lock thu' = holds_lock thu)
    as Hrefl by eauto.
  assert (∀ cv (ths : list (Thread Message)), ∀ u thu, ths !! u = Some thu →
            ∃ thu', notify_all cv ths !! u = Some thu' ∧
                    holds_lock thu' = holds_lock thu) as Hall.
  { intros cv ths u thu Hu. unfold notify_all. rewrite list_lookup_fmap, Hu.
    simpl. eexists; split; [done|].
    destruct (waiting_on cv thu); [apply holds_lock_unblock|done]. }
  assert (∀ cv w (ths ths' : list (Thread Message)),
            notify_one cv w ths = Some ths' →
            ∀ u thu, ths !! u = Some thu →
            ∃ thu', ths' !! u = Some thu' ∧ holds_lock thu' = holds_lock thu)
    as Hone.
  { intros cv w ths ths'. unfold notify_one.
    destruct (existsb _ _); [|intros [= <-]; eauto].
    destruct (ths !! w) as [thw|] eqn:Hw; [|done].
    destruct (waiting_on cv thw); [|done]. intros [= <-] u thu Hu.
    destruct (decide (w = u)) as [->|Hne].
    - rewrite list_lookup_insert_eq by (by eapply lookup_lt_Some).
      simplify_eq. eexists; split; [done|apply holds_lock_unblock].
    - rewrite list_lookup_insert_ne by done. eauto. }
  intros Hs. destruct l as [t w|t]; simpl in Hs;
    (destruct (threads σ !! t) as [th|] eqn:Ht; simpl in Hs; [|done]).
  - destruct th as [Policy m pc|Policy pc|predicate pc|pc|v]; [..|done];
      destruct pc; simpl in Hs; unfold goto, lock, unlock in Hs;
      repeat case_match; simplify_option_eq;
      eexists t, _, _, _; (split_and!; [done| |done|]); eauto; simpl; eauto.
  - unfold goto in Hs. case_match; simplify_eq.
    eexists t, _, _, _; split_and!; [done|apply Hrefl|done|].
    left. by rewrite holds_lock_unblock.
Qed.

(** The owner of the mutex is a thread inside the scope of its lock. *)
Lemma step_owner l σ σ' :
  step l σ = Some σ' →
  (∀ t, m_mtx σ = Some t →
     ∃ th, threads σ !! t = Some th ∧ holds_lock th = true) →
  ∀ t, m_mtx σ' = Some t →
    ∃ th, threads σ' !! t = Some th ∧ holds_lock th = true.
Proof.
  intros Hs Ho u Hu.
  destruct (step_shape _ _ _ Hs) as (t & th & th' & ths' & Ht & Hk & -> & Hm).
  destruct (Hk t th Ht) as (tht & Htt & _).
  assert (t < length ths') as Hlt by (by eapply lookup_lt_Some).
  destruct Hm as [[Hsame Hh]|[[Htake Hh]|Hfree]]; [| |congruence].
  - rewrite Hsame in Hu. destruct (Ho u Hu) as (thu & Hlu & Hhu).
    destruct (decide (t = u)) as [->|Hne].
    + rewrite list_lookup_insert_eq by done. simplify_eq.
      eexists; split; [done|congruence].
    + rewrite list_lookup_insert_ne by done.
      destruct (Hk u thu Hlu) as (thu' & ? & ?). eexists; split; [done|congruence].
  - rewrite Htake in Hu. simplify_eq.
    rewrite list_lookup_insert_eq by done. eauto.
Qed.

Lemma exec_owner ls σ σ' :
  exec ls σ = Some σ' →
  (∀ t, m_mtx σ = Some t →
     ∃ th, threads σ !! t = Some th ∧ holds_lock th = true) →
  ∀ t, m_mtx σ' = Some t →
    ∃ th, threads σ' !! t = Some th ∧ holds_lock th = true.
Proof.
  revert σ. induction ls as [|l ls IH]; simpl; intros σ.
  - by intros [= <-].
  - destruct (step l σ) as [σ1|] eqn:Hs; simpl; [|done].
    intros Hex Ho. eapply IH; [done|]. by eapply step_owner.
Qed.

(** Only a thread inside the scope of its lock changes the buffer. *)
Lemma step_changes_buffer_locked l σ σ' :
  step l σ = Some σ' → m_queue (queue σ') ≠ m_queue (queue σ) →
  ∃ t w th, l = Run t w ∧ threads σ !! t = Some th ∧ holds_lock th = true.
Proof.
  intros Hs Hch. destruct l as [t w|t]; simpl in Hs;
    (destruct (threads σ !! t) as [th|] eqn:Ht; simpl in Hs; [|done]).
  - exists t, w, th. split_and!; [done..|].
    destruct th as [Policy m pc|Policy pc|predicate pc|pc|v]; [..|done];
      destruct pc; simpl in Hs; unfold goto, lock, unlock in Hs;
      repeat case_match; simplify_option_eq; done.
  - unfold goto in Hs. case_match; simplify_eq.
Qed.

(** X15.  The locking discipline, along every schedule of any number of
    threads started on a constructed queue: at most one thread is inside
    the scope of a [unique_lock]; the owner of [m_mtx] is such a thread,
    so a call that has returned or is blocked in a wait does not hold the
    mutex; and every step that changes [m_queue] is taken by the owner. *)
Theorem mutex_discipline (c : nat) q (cs : list Call) ls σ :
  MessageQueue_ctor c = inr q → exec ls (boot q cs) = Some σ →
  (∀ t u th thu,
     threads σ !! t = Some th → threads σ !! u = Some thu →
     holds_lock th = true → holds_lock thu = true → t = u) ∧
  (∀ t, m_mtx σ = Some t →
     ∃ th, threads σ !! t = Some th ∧ holds_lock th = true) ∧
  (∀ l σ', step l σ = Some σ' → m_queue (queue σ') ≠ m_queue (queue σ) →
     ∃ t w, l = Run t w ∧ m_mtx σ = Some t).
Proof.
  intros Hq Hex.
  pose proof (exec_preserves_Inv _ _ _ (boot_Inv c q cs Hq) Hex) as HI.
  split_and!.
  - intros t u th thu Ht Hu Hth Hthu.
    pose proof (inv_mutex σ HI t th Ht Hth).
    pose proof (inv_mutex σ HI u thu Hu Hthu). congruence.
  - eapply exec_owner; [done|]. done.
  - intros l σ' Hs Hch.
    destruct (step_changes_buffer_locked _ _ _ Hs Hch) as (t & w & th & -> & Ht & Hh).
    exists t, w. split; [done|]. by apply (inv_mutex σ HI t th).
Qed.

End ThreadDiscipline.

Section ThreadScenarios.
Context {Message : Type} `{!DefaultConstructible Message}.
Implicit Types (q : MessageQueue Message) (m : Message).

(** X18.  [IsClosed()] is tested once, before the lock is taken.  A Push
    (either policy) that has passed line 48 on a running queue with room is
    not stopped by a Close that runs to completion before the Push takes
    the mutex: the message is appended to the closed queue and the Push
    returns [Ok].  Likewise a Pop that has passed line 81 still removes
    and returns the head after the Close. *)
Theorem call_in_flight_survives_Close q :
  IsClosed q = false →
  (∀ Policy m, length (m_queue q) ≠ m_queueSize q →
     exec ([Run 0 0] ++ replicate 3 (Run 1 0) ++ replicate 5 (Run 0 0))
       (boot q [CallPush Policy m; CallClose])
     = Some (mkMachine
               (mkQueue (m_queue q ++ [m]) (m_queueSize q) State.Closed) None
               [Finished (VResult Ok); Finished (VResult Ok)])) ∧
  (∀ Policy x l, m_queue q = x :: l →
     exec ([Run 0 0] ++ replicate 3 (Run 1 0) ++ replicate 5 (Run 0 0))
       (boot q [CallPop Policy; CallClose])
     = Some (mkMachine (mkQueue l (m_queueSize q) State.Closed) None
               [Finished (VPair (x, Ok)); Finished (VResult Ok)])).
Proof.
  intros Ho. split.
  - intros Policy m Hne. apply Nat.eqb_neq in Hne.
    repeat progress (simpl; rewrite ?Ho, ?Hne). done.
  - intros Policy x l Hq.
    repeat progress (simpl; rewrite ?Ho, ?Hq). done.
Qed.

(** X19.  A Pop hands its slot to a blocked Push.  Thread 0 is blocked in
    Push<Blocking>(m) on a full running queue [x :: l]; thread 1 pops
    (either policy).  The Pop returns [x], its [notify_one] unblocks thread
    0, which re-acquires the mutex, finds room, appends [m] and returns
    [Ok]; the buffer ends as [l ++ [m]] and the mutex is free. *)
Theorem blocked_Push_resumes_after_Pop q m x l Policy :
  IsClosed q = false → m_queue q = x :: l → length (x :: l) = m_queueSize q →
  exec (replicate 6 (Run 1 0) ++ replicate 6 (Run 0 0))
    (mkMachine q None [InPush Blocking m Push63_blocked; entry (CallPop Policy)])
  = Some (mkMachine (mkQueue (l ++ [m]) (m_queueSize q) (m_state q)) None
            [Finished (VResult Ok); Finished (VPair (x, Ok))]).
Proof.
  destruct q as [b c []]; [|done]. simpl. intros _ -> Hfull. simpl in Hfull.
  assert ((length l <? c) = true) as Hlt by (apply Nat.ltb_lt; lia).
  repeat progress (simpl; rewrite ?Hlt). done.
Qed.

(** X20.  A Push hands its message to a blocked Pop.  Thread 0 is blocked
    in Pop<Blocking> on an empty running queue of non-zero capacity; thread
    1 pushes [m] (either policy).  The Push returns [Ok], its [notify_one]
    unblocks thread 0, which re-acquires the mutex and returns [m]; the
    buffer is empty again and the mutex is free. *)
Theorem blocked_Pop_resumes_after_Push q m Policy :
  IsClosed q = false → m_queue q = [] → m_queueSize q ≠ 0 →
  exec (replicate 6 (Run 1 0) ++ replicate 6 (Run 0 0))
    (mkMachine q None [InPop Blocking Pop97_blocked; entry (CallPush Policy m)])
  = Some (mkMachine q None
            [Finished (VPair (m, Ok)); Finished (VResult Ok)]).
Proof.
  destruct q as [b [|c] []]; try done. simpl. by intros _ -> _.
Qed.

(** X21.  A wake-up is re-validated.  A thread blocked in Push<Blocking>
    that wakes up, for whatever reason, re-acquires the mutex and evaluates
    the predicate again: if the queue is still running and full it blocks
    again, the machine exactly as before; if the queue has been closed it
    returns [Closed] and releases the mutex, the buffer untouched.  The
    same holds for Pop<Blocking> on a queue that is still empty.  The other
    threads play no part. *)
Theorem wake_up_is_revalidated q (rest : list (Thread Message)) :
  (∀ m, IsClosed q = false → m_queueSize q ≤ length (m_queue q) →
     exec (SpuriousWake 0 :: replicate 3 (Run 0 0))
       (mkMachine q None (InPush Blocking m Push63_blocked :: rest))
     = Some (mkMachine q None (InPush Blocking m Push63_blocked :: rest))) ∧
  (∀ m, IsClosed q = true →
     exec (SpuriousWake 0 :: replicate 3 (Run 0 0))
       (mkMachine q None (InPush Blocking m Push63_blocked :: rest))
     = Some (mkMachine q None (Finished (VResult Closed) :: rest))) ∧
  (IsClosed q = false → m_queue q = [] →
     exec (SpuriousWake 0 :: replicate 3 (Run 0 0))
       (mkMachine q None (InPop Blocking Pop97_blocked :: rest))
     = Some (mkMachine q None (InPop Blocking Pop97_blocked :: rest))) ∧
  (IsClosed q = true →
     exec (SpuriousWake 0 :: replicate 3 (Run 0 0))
       (mkMachine q None (InPop Blocking Pop97_blocked :: rest))
     = Some (mkMachine q None (Finished (VPair (value_init, Closed)) :: rest))).
Proof.
  split_and!.
  - intros m Ho Hfull.
    assert ((length (m_queue q) <? m_queueSize q) = false) as Hlt
      by (apply Nat.ltb_ge; lia).
    repeat progress (simpl; rewrite ?Ho, ?Hlt). done.
  - intros m Hc. repeat progress (simpl; rewrite ?Hc). done.
  - intros Ho Hq. repeat progress (simpl; rewrite ?Ho, ?Hq). done.
  - intros Hc. repeat progress (simpl; rewrite ?Hc). done.
Qed.

End ThreadScenarios.

(** ** The demo program *)

(** What Get returns with [Ok] satisfies the predicate. *)
Lemma Get_Ok_satisfies {Message : Type} `{!DefaultConstructible Message}
    predicate (q q' : MessageQueue Message) x :
  Get predicate q = Returns (x, Ok) q' → predicate x = true.
Proof.
  unfold Get. destruct (IsClosed q); [done|].
  destruct (bool_decide _); [done|].
  destruct (m_queue q !! _) as [y|] eqn:Hy; [|done]. intros [= -> <-].
  by destruct (find_if_lookup _ _ _ Hy).
Qed.

(** X22.  Which threads of the demo can block.  The call of reader [i]
    parks exactly when [i mod 3 = 1] and the queue is running and empty
    (then on [m_popCv]); the call of writer [i] parks exactly when [i] is
    even and the queue is running with [m_queueSize] messages buffered
    (then on [m_pushCv]).  Readers with [i mod 3 ≠ 1] and odd writers always
    get a result. *)
Theorem demo_who_can_block (i : nat) (q : MessageQueue string) :
  (∀ cv q', reader_take i q = Suspends cv q' ↔
     i mod 3 = 1 ∧ IsClosed q = false ∧ m_queue q = [] ∧ cv = m_popCv ∧ q' = q) ∧
  (∀ cv q', writer_put i q = Suspends cv q' ↔
     i mod 2 = 0 ∧ IsClosed q = false ∧ length (m_queue q) = m_queueSize q ∧
     cv = m_pushCv ∧ q' = q).
Proof.
  split; intros cv q'.
  - unfold reader_take, IsNonBlockingPop, IsBlockingPop.
    destruct (Nat.eqb_spec (i mod 3) 0) as [H0|H0];
      [|destruct (Nat.eqb_spec (i mod 3) 1) as [H1|H1]].
    + split; [|lia]. unfold Pop, Pop_front.
      by destruct (IsClosed q), (m_queue q).
    + unfold Pop, Pop_wait, Pop_front.
      destruct (IsClosed q), (m_queue q); simpl;
        (split; [intros ?; by simplify_eq|by intros (_ & ? & ? & -> & ->)]).
    + split; [|tauto]. unfold Get.
      destruct (IsClosed q); [done|]. destruct (bool_decide _); [done|].
      by destruct (m_queue q !! _).
  - unfold writer_put, IsNonBlockingPush.
    destruct (Nat.eqb_spec (i mod 2) 0) as [H0|H0]; simpl.
    + unfold Push, Push_wait. destruct (IsClosed q); simpl.
      { split; [done|]. by intros (_ & ? & _). }
      destruct (Nat.eqb_spec (length (m_queue q)) (m_queueSize q)) as [He|He].
      * rewrite He, Nat.ltb_irrefl.
        split; [intros ?; by simplify_eq|by intros (_ & _ & _ & -> & ->)].
      * split; [done|]. by intros (_ & _ & ? & _).
    + split; [|tauto]. unfold Push.
      by destruct (IsClosed q), (length (m_queue q) =? m_queueSize q).
Qed.

(** X23.  The reader that calls Get looks for the message ["3"].  The
    message of writer [i] satisfies its predicate exactly when [i = 3]:
    odd writers push their index in decimal, even writers push
    ["Writer "] followed by their index.  So whatever Get returns with
    [Ok] from a buffer of writer messages was pushed by writer 3, and the
    messages of the other writers leave the queue only through Pop. *)
Theorem Get_reader_takes_writer_3 (i : nat) :
  (is_3 (writer_message i) = true ↔ i = 3) ∧
  (∀ (q q' : MessageQueue string) x,
     Get is_3 q = Returns (x, Ok) q' → x = writer_message 3).
Proof.
  split.
  - unfold is_3, writer_message, IsNonBlockingPush, writer_id, to_string.
    rewrite bool_decide_eq_true. split.
    + destruct (i mod 2 =? 0); simpl; [discriminate|].
      intros Hp. by apply (inj pretty).
    + intros ->. reflexivity.
  - intros q q' x Hget.
    pose proof (Get_Ok_satisfies _ _ _ _ Hget) as Hx.
    unfold is_3 in Hx. by apply bool_decide_eq_true in Hx.
Qed.

(** X24.  After Close every turn of every reader and writer of the demo
    returns at once, leaves the queue as it is and prints the error line
    with code 4, whatever the thread's index and whatever is still
    buffered. *)
Theorem demo_after_Close (i : nat) (q : MessageQueue string) :
  IsClosed q = true →
  reader_iteration i q
  = Returns (reader_id i +:+ ": An error occurred while popping. Code: 4"
               +:+ String "010"%char EmptyString) q ∧
  writer_iteration i q
  = Returns (writer_id i +:+ ": An error occurred while pushing. Code: 4"
               +:+ String "010"%char EmptyString) q.
Proof.
  intros Hc.
  unfold reader_iteration, writer_iteration, reader_take, writer_put,
    Pop, Get, Push.
  rewrite Hc. by destruct (IsNonBlockingPop i), (IsBlockingPop i),
    (IsNonBlockingPush i).
Qed.

(** The statements above at concrete inputs. *)

Lemma mutex_discipline_witness :
  ∃ th, [InPush NonBlocking "X" Push53; entry (CallPush Blocking "Y");
         entry (CallPop NonBlocking)] !! 0 = Some th ∧
        holds_lock th = true.
Proof.
  exact (proj1 (proj2 (mutex_discipline 1 (mkQueue [] 1 State.Running)
                         [CallPush NonBlocking "X"; CallPush Blocking "Y";
                          CallPop NonBlocking]
                         [Run 0 0; Run 0 0] _ eq_refl eq_refl)) 0 eq_refl).
Defined.

Lemma call_in_flight_survives_Close_witness :
  exec ([Run 0 0] ++ replicate 3 (Run 1 0) ++ replicate 5 (Run 0 0))
    (boot (mkQueue ["A"] 2 State.Running) [CallPush NonBlocking "B"; CallClose])
  = Some (mkMachine (mkQueue ["A"; "B"] 2 State.Closed) None
            [Finished (VResult Ok); Finished (VResult Ok)]).
Proof.
  destruct (call_in_flight_survives_Close (mkQueue ["A"] 2 State.Running) eq_refl)
    as [Hpush _].
  apply (Hpush NonBlocking "B"). simpl. lia.
Defined.

Lemma blocked_Push_resumes_after_Pop_witness :
  exec (replicate 6 (Run 1 0) ++ replicate 6 (Run 0 0))
    (mkMachine (mkQueue ["X"] 1 State.Running) None
       [InPush Blocking "Y" Push63_blocked; entry (CallPop NonBlocking)])
  = Some (mkMachine (mkQueue ["Y"] 1 State.Running) None
            [Finished (VResult Ok); Finished (VPair ("X", Ok))]).
Proof.
  apply (blocked_Push_resumes_after_Pop (mkQueue ["X"] 1 State.Running)
           "Y" "X" [] NonBlocking); reflexivity.
Defined.

Lemma blocked_Pop_resumes_after_Push_witness :
  exec (replicate 6 (Run 1 0) ++ replicate 6 (Run 0 0))
    (mkMachine (mkQueue [] 2 State.Running) None
       [InPop Blocking Pop97_blocked; entry (CallPush NonBlocking "A")])
  = Some (mkMachine (mkQueue [] 2 State.Running) None
            [Finished (VPair ("A", Ok)); Finished (VResult Ok)]).
Proof.
  apply (blocked_Pop_resumes_after_Push (mkQueue [] 2 State.Running)
           "A" NonBlocking); [reflexivity|reflexivity|discriminate].
Defined.

Lemma wake_up_is_revalidated_witness :
  exec (SpuriousWake 0 :: replicate 3 (Run 0 0))
    (mkMachine (mkQueue ["X"] 1 State.Running) None
       [InPush Blocking "Y" Push63_blocked; InPop NonBlocking Pop81])
  = Some (mkMachine (mkQueue ["X"] 1 State.Running) None
            [InPush Blocking "Y" Push63_blocked; InPop NonBlocking Pop81]).
Proof.
  destruct (wake_up_is_revalidated (mkQueue ["X"] 1 State.Running)
              [InPop NonBlocking Pop81]) as [Hfull _].
  apply (Hfull "Y"); [reflexivity|simpl; lia].
Defined.

Lemma demo_who_can_block_witness :
  reader_take 1 (mkQueue [] 2 State.Running)
  = Suspends m_popCv (mkQueue [] 2 State.Running).
Proof.
  destruct (demo_who_can_block 1 (mkQueue [] 2 State.Running)) as [Hreader _].
  apply Hreader. split_and!; reflexivity.
Defined.

Lemma Get_reader_takes_writer_3_witness :
  "3" = writer_message 3.
Proof.
  destruct (Get_reader_takes_writer_3 3) as [_ Hget].
  apply (Hget (mkQueue ["Writer 0"; "3"; "1"] 3 State.Running)
           (mkQueue ["Writer 0"; "1"] 3 State.Running) "3").
  reflexivity.
Defined.

Lemma demo_after_Close_witness :
  writer_iteration 4 (mkQueue ["Writer 0"; "3"] 2 State.Closed)
  = Returns
      ("Writer 4: An error occurred while pushing. Code: 4"
         +:+ String "010"%char EmptyString)
      (mkQueue ["Writer 0"; "3"] 2 State.Closed).
Proof.
  apply (demo_after_Close 4 (mkQueue ["Writer 0"; "3"] 2 State.Closed)).
  reflexivity.
Defined.

(** The demo's own threads on its queue of capacity 2: writer 1 pushes
    ["1"], writer 3 pushes ["3"], writer 0 finds the queue full and parks;
    reader 2 takes ["3"] from behind ["1"]; reader 0 pops ["1"]. *)
Example demo_turns :
  writer_iteration 1 (mkQueue [] 2 State.Running)
  = Returns ("Writer 1: push operation succeeded." +:+ String "010"%char EmptyString)
      (mkQueue ["1"] 2 State.Running) ∧
  writer_iteration 3 (mkQueue ["1"] 2 State.Running)
  = Returns ("Writer 3: push operation succeeded." +:+ String "010"%char EmptyString)
      (mkQueue ["1"; "3"] 2 State.Running) ∧
  writer_iteration 0 (mkQueue ["1"; "3"] 2 State.Running)
  = Suspends m_pushCv (mkQueue ["1"; "3"] 2 State.Running) ∧
  reader_iteration 2 (mkQueue ["1"; "3"] 2 State.Running)
  = Returns ("Reader 2: 3" +:+ String "010"%char EmptyString)
      (mkQueue ["1"] 2 State.Running) ∧
  reader_iteration 0 (mkQueue ["1"] 2 State.Running)
  = Returns ("Reader 0: 1" +:+ String "010"%char EmptyString)
      (mkQueue [] 2 State.Running) ∧
  reader_iteration 0 (mkQueue [] 2 State.Running)
  = Returns ("Reader 0: An error occurred while popping. Code: 1"
               +:+ String "010"%char EmptyString)
      (mkQueue [] 2 State.Running).
Proof. split_and!; reflexivity. Qed.

(** Thread 1 holds the mutex in the middle of a Pop; the Push of thread 0
    on the closed queue returns without waiting for it. *)
Lemma entry_on_closed_witness :
  step (Run 0 0)
    (mkMachine (mkQueue ["A"] 2 State.Closed) (Some 1)
       [entry (CallPush Blocking "B"); InPop NonBlocking Pop87])
  = Some (mkMachine (mkQueue ["A"] 2 State.Closed) (Some 1)
            [Finished (VResult Closed); InPop NonBlocking Pop87]).
Proof.
  destruct (entry_on_closed
              (mkMachine (mkQueue ["A"] 2 State.Closed) (Some 1)
                 [entry (CallPush Blocking "B"); InPop NonBlocking Pop87])
              0 0 eq_refl) as [Hpush _].
  apply (Hpush Blocking "B"). reflexivity.
Defined.
